(** * A layered YAML configuration provider: merge, lookup tree, variable expansion

    Shallow embedding of [yaml.go]: the deep merge of parsed documents
    ([mergeMaps], [newYAMLProviderCore]), the lazily expanded node tree
    ([Children], [Find]) and the resolution of one variable token
    ([replace]).

    Conventions of the embedding.
    - A Go [interface{}] holding a parsed document is the inductive type
      [generic]; a Go map is a [gmap], whose iteration order is not part of
      the value.  Where the code ranges over a map to build an ordered slice
      ([Children]), the order is a parameter [rangeMap] of the tree; what
      holds of two runs, each with an order of its own, is stated with two
      such parameters.
    - [strings.EqualFold] is a library function over the Unicode tables:
      the lookup is parametric in it (class [Folding]), and what the proofs
      use of it is the class [FoldingLaws].  Its ASCII path is the instance
      that the examples run.
    - Go [int] is [Z]; string lengths stay far below the word size, so no
      wrap-around is written out.
    - Go strings are byte strings: [string] of Rocq.
    - Nodes are heap objects reached through [*yamlNode]: a [store] holds the
      nodes and the backing arrays of the slices, and the methods are
      state-passing functions.  [None] stands for a run-time panic (nil
      dereference, failed type assertion, slice bound out of range) or, in
      the fuelled functions, for exhausted fuel. *)

From stdpp Require Import gmap strings list fin_maps pretty.
From Stdlib Require Import ZArith Ascii Lia.

Set Warnings "-register-all".
Local Open Scope Z_scope.

(** ** Generic values *)

(** Scalars that a YAML key or leaf can be.  Floating-point scalars are left
    out of the model, and with them the key NaN, the one key that a lookup
    in a Go map never finds again: the maps of the model are the maps whose
    keys are strings, integers and booleans. *)
Inductive scalar : Type :=
  | SString (s : string)
  | SInt (z : Z)
  | SBool (b : bool).

Global Instance scalar_eq_dec : EqDecision scalar.
Proof. solve_decision. Defined.

Global Instance scalar_countable : Countable scalar.
Proof.
  refine (inj_countable'
    (λ x, match x with
          | SString s => inl s
          | SInt z => inr (inl z)
          | SBool b => inr (inr b)
          end)
    (λ y, match y with
          | inl s => SString s
          | inr (inl z) => SInt z
          | inr (inr b) => SBool b
          end) _).
  by intros [].
Defined.

(** The dynamic content of an [interface{}] value produced by the parser:
    [Absent] is the nil interface (also what a YAML null decodes to),
    [Mapping] is [map[interface{}]interface{}], [Sequence] is
    [[]interface{}]. *)
Inductive generic : Type :=
  | Absent
  | Scalar (x : scalar)
  | Sequence (l : list generic)
  | Mapping (m : gmap scalar generic).

Definition is_mapping (v : generic) : bool :=
  match v with Mapping _ => true | _ => false end.

Definition is_absent (v : generic) : bool :=
  match v with Absent => true | _ => false end.

(** ** Errors and outcomes *)

Inductive error : Type :=
  (* fmt.Errorf("can't merge map[interface{}]interface{} and %T. Source: %q.
     Destination: %q", dst, src, dst) *)
  | MergeConflict (dst src : generic)
  (* fmt.Errorf(`default is empty for %q (use "" for empty string)`, key) *)
  | DefaultEmpty (key : string)
  (* an error of the reader or of the YAML parser *)
  | ParseError (msg : string)
  (* errors.Wrapf(err, "in file: %q", file.Name()) *)
  | InFile (name : string) (err : error).

(** What a call with an [error] result gives back: a value with a nil
    error, or a non-nil error. *)
Inductive res (A : Type) : Type :=
  | Ok (a : A)
  | Err (e : error).
Arguments Ok {A} a.
Arguments Err {A} e.

(** ** Package-level constants *)

Definition _envSeparator : string := ":".

(** The two-character literal made of two double quotes. *)
Definition _emptyDefault : string :=
  String "034"%char (String "034"%char EmptyString).

(** Modelled from the spec: the constant [_separator] is declared outside
    [yaml.go]; the spec fixes the separator of a lookup path as the
    character [.]. *)
Definition _separator : string := ".".

(** ** Strings *)

Definition len (s : string) : Z := Z.of_nat (String.length s).

Fixpoint str_take (n : nat) (s : string) : string :=
  match n, s with
  | S n', String c s' => String c (str_take n' s')
  | _, _ => EmptyString
  end.

Fixpoint str_drop (n : nat) (s : string) : string :=
  match n, s with
  | S n', String _ s' => str_drop n' s'
  | _, _ => s
  end.

(** [s[:i]] and [s[i:]]; a bound outside [0 .. len(s)] panics. *)
Definition slice_to (s : string) (i : Z) : option string :=
  if (0 <=? i) && (i <=? len s) then Some (str_take (Z.to_nat i) s) else None.

Definition slice_from (s : string) (i : Z) : option string :=
  if (0 <=? i) && (i <=? len s) then Some (str_drop (Z.to_nat i) s) else None.

(** [strings.Index]: the first position where [substr] occurs, or -1. *)
Fixpoint Index (s substr : string) : Z :=
  if String.prefix substr s then 0
  else match s with
       | EmptyString => -1
       | String _ s' =>
         let i := Index s' substr in if i =? -1 then -1 else i + 1
       end.

(** [strings.LastIndex]: the last position where [substr] occurs, or -1. *)
Fixpoint LastIndex (s substr : string) : Z :=
  match s with
  | EmptyString => if String.prefix substr s then 0 else -1
  | String _ s' =>
    let i := LastIndex s' substr in
    if i =? -1 then (if String.prefix substr s then 0 else -1) else i + 1
  end.

(** ** The comparison of labels *)

(** [strings.EqualFold] is a function of the library, defined over the
    Unicode tables: the lookup is parametric in it, and [EqualFold s t]
    stands for the call [strings.EqualFold(s, t)]. *)
Class Folding := EqualFold : string → string → bool.

(** The ASCII path of [strings.EqualFold], the loop it runs while both
    bytes are below [utf8.RuneSelf]: two bytes match when they are equal,
    or when the smaller one is an upper-case ASCII letter and the larger
    one its lower-case form. *)
Definition fold_eq (sr tr : ascii) : bool :=
  let a := N_of_ascii sr in
  let b := N_of_ascii tr in
  if (a =? b)%N then true
  else
    let lo := N.min a b in
    let hi := N.max a b in
    ((65 <=? lo) && (lo <=? 90) && (hi =? lo + 32))%N.

(** The lower-case form of a byte, as a number: what [fold_eq] compares. *)
Definition canon (x : N) : N :=
  if ((65 <=? x) && (x <=? 90))%N then (x + 32)%N else x.

Fixpoint EqualFold_ascii (s t : string) : bool :=
  match s, t with
  | EmptyString, EmptyString => true
  | String sr s', String tr t' => fold_eq sr tr && EqualFold_ascii s' t'
  | _, _ => false
  end.

(** Strings of bytes below [utf8.RuneSelf], and strings of decimal
    digits. *)
Fixpoint is_ascii (s : string) : bool :=
  match s with
  | EmptyString => true
  | String c s' => (N_of_ascii c <? 128)%N && is_ascii s'
  end.

Definition is_digit (c : ascii) : bool :=
  ((48 <=? N_of_ascii c) && (N_of_ascii c <=? 57))%N.

Fixpoint all_digits (s : string) : bool :=
  match s with
  | EmptyString => true
  | String c s' => is_digit c && all_digits s'
  end.

(** What is used of [strings.EqualFold].  The function decodes both
    strings rune by rune (a byte that is no valid UTF-8 counts as the rune
    U+FFFD) and compares the runes up to the simple case folding of
    Unicode, which is an equivalence on runes.
    - [fold_refl], [fold_sym], [fold_trans]: so it is an equivalence on
      strings.
    - [fold_empty]: two strings that match have the same number of runes.
    - [fold_separator]: the byte [.] is below [utf8.RuneSelf], so it is a
      rune by itself wherever it stands, and it ends the rune before it;
      no other rune folds to it.  Hence a string matches [a.b] exactly
      when it is some [a'.b'] where [a'] matches [a] and [b'] matches [b].
    - [fold_digits]: likewise no other rune folds to a decimal digit.
    - [fold_ascii]: on strings of ASCII bytes the function is its ASCII
      loop.
    Lengths in bytes are not preserved: the Kelvin sign, three bytes,
    matches [k]. *)
Class FoldingLaws `{Folding} : Prop := {
  fold_refl s : EqualFold s s = true;
  fold_sym s t : EqualFold s t = true → EqualFold t s = true;
  fold_trans s t u :
    EqualFold s t = true → EqualFold t u = true → EqualFold s u = true;
  fold_empty t : EqualFold EmptyString t = true → t = EmptyString;
  fold_separator a b t :
    EqualFold (a +:+ String "." b) t = true ↔
    ∃ a' b', t = a' +:+ String "." b' ∧
             EqualFold a a' = true ∧ EqualFold b b' = true;
  fold_digits s t : all_digits s = true → EqualFold s t = true → s = t;
  fold_ascii s t :
    is_ascii s = true → is_ascii t = true →
    EqualFold s t = EqualFold_ascii s t
}.

(** The ASCII path taken as the whole comparison: the instance that the
    examples run. *)
#[global] Instance ascii_folding : Folding := EqualFold_ascii.

(** [strconv.Itoa] and [fmt.Sprintf("%v", k)] for a map key. *)
Definition Itoa (i : Z) : string := pretty i.

Definition Sprintf_v (k : scalar) : string :=
  match k with
  | SString s => s
  | SInt z => pretty z
  | SBool b => if b then "true" else "false"
  end.

(** ** The merge engine *)

(** One iteration of [for k, v := range s] in [mergeMaps], with the recursive
    call abstracted; [dstMap[k]] of a missing key is nil. *)
Definition mergeEntry (rec : generic → generic → res generic)
    (k : scalar) (v : generic) (acc : res (gmap scalar generic))
    : res (gmap scalar generic) :=
  match acc with
  | Ok dstMap =>
    let oldVal := default Absent (dstMap !! k) in
    match oldVal with
    | Absent => Ok (<[k:=v]> dstMap)
    | _ =>
      match rec oldVal v with
      | Ok tmp => Ok (<[k:=tmp]> dstMap)
      | Err e => Err e
      end
    end
  | Err e => Err e
  end.

(** [mergeMaps(dst, src)].  The map of [dst] is updated in place by the code;
    the documents the provider merges are freshly parsed trees that share no
    map, so the update is rendered by the new map.  The order in which the
    keys of [src] are visited only decides which conflict is reported when
    there are several. *)
Fixpoint mergeMaps (dst src : generic) {struct src} : res generic :=
  match dst with
  | Absent => Ok src
  | _ =>
    match src with
    | Absent => Ok dst
    | Mapping s =>
      match dst with
      | Mapping dstMap =>
        match map_fold (mergeEntry mergeMaps) (Ok dstMap) s with
        | Ok m => Ok (Mapping m)
        | Err e => Err e
        end
      | _ => Err (MergeConflict dst src)
      end
    | _ => Ok src
    end
  end.

(** What the merged map holds at [k], given both operands: the value of
    [dst] where [src] has none, and otherwise the merge of the two values,
    nil standing for a value that [dst] lacks. *)
Definition merged_at (d s : gmap scalar generic) (k : scalar)
    (o : option generic) : Prop :=
  match s !! k with
  | None => o = d !! k
  | Some b => ∃ r, mergeMaps (default Absent (d !! k)) b = Ok r ∧ o = Some r
  end.

(** ** Variable resolution *)

(** The function returned by [replace(lookUp)], applied to a token body
    (the parameter [in] of the code). *)
Definition replace (lookUp : string → string * bool) (body : string)
    : option (res string) :=
  let sep := Index body _envSeparator in
  let parts :=
    if sep =? -1 then Some (body, EmptyString)
    else
      key ← slice_to body sep;
      def ← slice_from body (sep + 1);
      Some (key, def) in
  match parts with
  | None => None
  | Some (key, def) =>
    let '(envVal, ok) := lookUp key in
    if ok then Some (Ok envVal)
    else if String.eqb def EmptyString then Some (Err (DefaultEmpty key))
    else if String.eqb def _emptyDefault then Some (Ok EmptyString)
    else Some (Ok def)
  end.

(** ** Construction of the provider *)

Inductive nodeType : Type :=
  | valueNode
  | objectNode
  | arrayNode.

Definition getNodeType (val : generic) : nodeType :=
  match val with
  | Mapping _ => objectNode
  | Sequence _ => arrayNode
  | _ => valueNode
  end.

(** A pointer [*yamlNode] is an index into the node heap, a slice is the
    index of its backing array. *)
Abbreviation ptr := nat (only parsing).
Abbreviation slice := nat (only parsing).

(** The struct [yamlNode]; [nodeKind] is its field [nodeType], and
    [children] is [None] for the nil slice. *)
Record yamlNode : Type := mkNode {
  nodeKind : nodeType;
  key : string;
  value : generic;
  children : option slice
}.

Record yamlConfigProvider : Type := mkProvider { root : yamlNode }.

(** An [io.Reader] handed to the provider: the name of the file when the
    reader is an [*os.File], and what [unmarshalYAMLValue] makes of its
    content (the parser is a black box). *)
Record reader : Type := mkReader {
  fileName : option string;
  unmarshalYAMLValue : res generic
}.

(** The loop of [newYAMLProviderCore] over the readers. *)
Fixpoint mergeFiles (root : generic) (files : list reader) : res generic :=
  match files with
  | [] => Ok root
  | v :: rest =>
    match unmarshalYAMLValue v with
    | Ok curr =>
      match mergeMaps root curr with
      | Ok tmp => mergeFiles tmp rest
      | Err e => Err e
      end
    | Err err =>
      match fileName v with
      | Some name => Err (InFile name err)
      | None => Err err
      end
    end
  end.

(** [Root], the reserved key of the root node, is declared outside
    [yaml.go]: it is a parameter of the constructor. *)
Definition newYAMLProviderCore (Root : string) (files : list reader)
    : res yamlConfigProvider :=
  match mergeFiles Absent files with
  | Ok root => Ok (mkProvider (mkNode (getNodeType root) Root root None))
  | Err e => Err e
  end.

(** ** The lookup tree *)

Record store : Type := mkStore {
  nodes : list yamlNode;
  arrays : list (list ptr)
}.

(** The provider's root node placed in memory, as [getNode] sees it. *)
Definition load (y : yamlConfigProvider) : store := mkStore [root y] [].

(** The node the loops of [Children] allocate for an entry:
    [&yamlNode{nodeType: getNodeType(v), key: ..., value: v}]. *)
Definition mkChild (e : string * generic) : yamlNode :=
  mkNode (getNodeType e.2) e.1 e.2 None.

(** A caller overwriting the elements of a slice it holds. *)
Definition overwrite (s : slice) (elems : list ptr) (st : store) : store :=
  mkStore (nodes st) (<[s := elems]> (arrays st)).

Section Tree.
(** The order in which [range] visits the entries of a map is left open by
    the language. *)
Variable rangeMap : gmap scalar generic → list (scalar * generic).
Context {fold : Folding}.

Definition objectEntries (m : gmap scalar generic)
    : list (string * generic) :=
  (λ kv, (Sprintf_v kv.1, kv.2)) <$> rangeMap m.

Definition arrayEntries (l : list generic) : list (string * generic) :=
  imap (λ k v, (Itoa (Z.of_nat k), v)) l.

(** The body shared by the two loops of [Children]: allocate [n2] and
    [n.children = append(n.children, n2)]. *)
Definition appendChild (p : ptr) (st : store) (e : string * generic)
    : option store :=
  n ← nodes st !! p;
  a ← children n;
  c ← arrays st !! a;
  let n2 := mkChild e in
  Some (mkStore (nodes st ++ [n2])
                (<[a := c ++ [length (nodes st)]]> (arrays st))).

Fixpoint appendChildren (p : ptr) (es : list (string * generic))
    (st : store) : option store :=
  match es with
  | [] => Some st
  | e :: es' => st' ← appendChild p st e; appendChildren p es' st'
  end.

(** The [switch n.nodeType] of [Children], with its type assertions. *)
Definition expand (p : ptr) (n : yamlNode) (st : store) : option store :=
  match nodeKind n with
  | objectNode =>
    match value n with
    | Mapping m => appendChildren p (objectEntries m) st
    | _ => None
    end
  | arrayNode =>
    match value n with
    | Sequence l => appendChildren p (arrayEntries l) st
    | _ => None
    end
  | valueNode => Some st
  end.

(** [n.Children()]: fills the cache on the first call, then returns a
    fresh slice holding a copy of it. *)
Definition Children (p : ptr) (st : store) : option (slice * store) :=
  n ← nodes st !! p;
  st1 ← match children n with
        | None =>
          let a := length (arrays st) in
          let n' := mkNode (nodeKind n) (key n) (value n) (Some a) in
          expand p n (mkStore (<[p := n']> (nodes st)) (arrays st ++ [[]]))
        | Some _ => Some st
        end;
  n1 ← nodes st1 !! p;
  a ← children n1;
  c ← arrays st1 !! a;
  Some (length (arrays st1), mkStore (nodes st1) (arrays st1 ++ [c])).

(** The inner loop of [Find], [for _, v := range n.Children()], over the
    elements of the returned slice; [rec] is the recursive call. *)
Definition scan (rec : ptr → string → store → option (option ptr * store))
    (dottedPath curr : string)
    : list ptr → store → option (option ptr * store) :=
  fix go vs st :=
    match vs with
    | [] => Some (None, st)
    | v :: vs' =>
      vn ← nodes st !! v;
      if EqualFold (key vn) curr then
        if String.eqb curr dottedPath then Some (Some v, st)
        else
          rest ← slice_from dottedPath (len curr + 1);
          '(node, st') ← rec v rest st;
          match node with
          | Some _ => Some (node, st')
          | None => go vs' st'
          end
      else go vs' st
    end.

(** The outer loop of [Find], [for curr := dottedPath; len(curr) != 0;];
    [k] bounds the number of iterations ([curr] gets strictly shorter at
    each of them). *)
Definition search (rec : ptr → string → store → option (option ptr * store))
    (p : ptr) (dottedPath : string)
    : nat → string → store → option (option ptr * store) :=
  fix go k curr st :=
    if len curr =? 0 then Some (None, st)
    else
      match k with
      | O => None
      | S k' =>
        '(s, st1) ← Children p st;
        vs ← arrays st1 !! s;
        '(node, st2) ← scan rec dottedPath curr vs st1;
        match node with
        | Some _ => Some (node, st2)
        | None =>
          let last := LastIndex curr _separator in
          if 0 <? last then
            curr' ← slice_to curr last;
            go k' curr' st2
          else Some (None, st2)
        end
      end.

Fixpoint Find_fuel (fuel : nat) (p : ptr) (dottedPath : string)
    (st : store) : option (option ptr * store) :=
  match fuel with
  | O => None
  | S fuel' =>
    search (Find_fuel fuel') p dottedPath
           (S (String.length dottedPath)) dottedPath st
  end.

(** [n.Find(dottedPath)]: every recursive call is on a strictly shorter
    path, so this much fuel is never used up. *)
Definition Find (p : ptr) (dottedPath : string) (st : store)
    : option (option ptr * store) :=
  Find_fuel (S (String.length dottedPath)) p dottedPath st.

(** *** The tree a node stands for *)

(** The labelled children that the value of a node gives rise to. *)
Definition childrenOf (v : generic) : list (string * generic) :=
  match v with
  | Mapping m => objectEntries m
  | Sequence l => arrayEntries l
  | _ => []
  end.

(** The value found by walking child indices down from a value. *)
Fixpoint valueAt (v : generic) (pos : list nat) : option generic :=
  match pos with
  | [] => Some v
  | i :: pos' => e ← childrenOf v !! i; valueAt e.2 pos'
  end.

(** *** Longest-match descent, as the specification words it

    A node is named by its position: the child indices from the node the
    search starts at.  [skip_empty] tells whether an empty candidate is
    given up before the children are looked at. *)

(** The candidate cut before its last separator, when that separator is
    at a position > 0. *)
Definition truncate (candidate : string) : option string :=
  let last := LastIndex candidate _separator in
  if 0 <? last then Some (str_take (Z.to_nat last) candidate) else None.

(** The suffix of the path after the matched prefix and its separator. *)
Definition suffixAfter (path candidate : string) : string :=
  str_drop (S (String.length candidate)) path.

(** Step 2: the children whose label equals the candidate, in order. *)
Definition matchChildren (rec : generic → string → option (list nat))
    (path candidate : string)
    : nat → list (string * generic) → option (list nat) :=
  fix go i cs :=
    match cs with
    | [] => None
    | c :: cs' =>
      if EqualFold c.1 candidate then
        if String.eqb candidate path then Some [i]
        else
          match rec c.2 (suffixAfter path candidate) with
          | Some pos => Some (i :: pos)
          | None => go (S i) cs'
          end
      else go (S i) cs'
    end.

(** Steps 2 to 4, repeated over shorter and shorter candidates. *)
Definition descend (skip_empty : bool)
    (rec : generic → string → option (list nat))
    (v : generic) (path : string) : nat → string → option (list nat) :=
  fix go k candidate :=
    if skip_empty && (String.length candidate =? 0)%nat then None
    else
      match k with
      | O => None
      | S k' =>
        match matchChildren rec path candidate 0%nat (childrenOf v) with
        | Some pos => Some pos
        | None =>
          match truncate candidate with
          | Some shorter => go k' shorter
          | None => None
          end
        end
      end.

Fixpoint longestMatch_fuel (skip_empty : bool) (fuel : nat) (v : generic)
    (path : string) : option (list nat) :=
  match fuel with
  | O => None
  | S fuel' =>
    descend skip_empty (longestMatch_fuel skip_empty fuel') v path
            (S (String.length path)) path
  end.

(** The descent as it is worded: the whole path is the first candidate,
    whatever it is. *)
Definition longestMatch_claimed (v : generic) (path : string)
    : option (list nat) :=
  longestMatch_fuel false (S (String.length path)) v path.

(** The same descent, except that an empty path finds nothing. *)
Definition longestMatch (v : generic) (path : string) : option (list nat) :=
  longestMatch_fuel true (S (String.length path)) v path.

(** For the proofs: two candidates at the same place of two paths, that
    is, the candidates match and so do the suffixes that the paths hold
    after them. *)
Definition aligned (path1 path2 c1 c2 : string) : Prop :=
  EqualFold c1 c2 = true ∧
  ((c1 = path1 ∧ c2 = path2) ∨
   ∃ s1 s2, path1 = c1 +:+ String "." s1 ∧ path2 = c2 +:+ String "." s2 ∧
            EqualFold s1 s2 = true).

(** *** Heap invariants *)

(** The cached child pointers of a node, once expanded. *)
Definition cache (st : store) (p : ptr) : option (list ptr) :=
  n ← nodes st !! p; a ← children n; arrays st !! a.

(** The node at [q] carries the label and the value of entry [e]. *)
Definition holds (st : store) (q : ptr) (e : string * generic) : Prop :=
  ∃ n, nodes st !! q = Some n ∧ key n = e.1 ∧ value n = e.2.

(** Every node has the kind of its value, and a filled cache lists one
    node per child of the value, in order. *)
Definition wf_store (st : store) : Prop :=
  ∀ p n, nodes st !! p = Some n →
    nodeKind n = getNodeType (value n) ∧
    ∀ a, children n = Some a →
      ∃ c, arrays st !! a = Some c ∧
           Forall2 (holds st) c (childrenOf (value n)).

(** [st'] is a later state of [st]: nodes keep their label and value, and
    a cache once filled keeps its content. *)
Definition extends (st st' : store) : Prop :=
  ∀ p n, nodes st !! p = Some n →
    (∃ n', nodes st' !! p = Some n' ∧ key n' = key n ∧ value n' = value n) ∧
    ∀ c, cache st p = Some c → cache st' p = Some c.

(** The node reached from [p] through the caches along a position. *)
Fixpoint nodeAt (st : store) (p : ptr) (pos : list nat) : option ptr :=
  match pos with
  | [] => Some p
  | i :: pos' => c ← cache st p; q ← c !! i; nodeAt st q pos'
  end.

(** The answer [r] of [Find] from [p] names the position [pos]. *)
Definition answers (st : store) (p : ptr) (r : option ptr)
    (pos : option (list nat)) : Prop :=
  match pos with
  | None => r = None
  | Some pos => ∃ q, r = Some q ∧ nodeAt st p pos = Some q
  end.

(** [rec] returns on every path shorter than [bound], keeps the heap
    well formed, and answers as [recS] does. *)
Definition sound_below
    (rec : ptr → string → store → option (option ptr * store))
    (recS : generic → string → option (list nat)) (bound : nat) : Prop :=
  ∀ p path st n,
    wf_store st → nodes st !! p = Some n →
    (String.length path < bound)%nat →
    ∃ r st', rec p path st = Some (r, st') ∧ wf_store st' ∧
             extends st st' ∧ answers st' p r (recS (value n) path).

End Tree.

(** *** Documents that every order of the maps resolves alike *)

Section Documents.
Context {fold : Folding}.

(** No mapping of the document has two keys whose labels match. *)
Fixpoint unambiguous (v : generic) : Prop :=
  match v with
  | Mapping m =>
    (∀ k1 k2, is_Some (m !! k1) → is_Some (m !! k2) →
       EqualFold (Sprintf_v k1) (Sprintf_v k2) = true → k1 = k2) ∧
    map_fold (λ _ x acc, unambiguous x ∧ acc) True m
  | Sequence l => foldr (λ x acc, unambiguous x ∧ acc) True l
  | _ => True
  end.
End Documents.

(** Two positions, each in its own order of the maps, that hold the same
    value, or no position at all. *)
Definition same_value
    (rangeMap1 rangeMap2 : gmap scalar generic → list (scalar * generic))
    (v : generic) (pos1 pos2 : option (list nat)) : Prop :=
  match pos1, pos2 with
  | Some p1, Some p2 =>
    ∃ w, valueAt rangeMap1 v p1 = Some w ∧ valueAt rangeMap2 v p2 = Some w
  | None, None => True
  | _, _ => False
  end.

(** *** A small tree for the examples *)

(** The tree of the document [{A: {b: 1}}], before any query. *)
Definition tree_Ab : generic :=
  Mapping {[SString "A" := Mapping {[SString "b" := Scalar (SInt 1)]}]}.

Definition store_Ab : store :=
  load (mkProvider (mkNode objectNode EmptyString tree_Ab None)).

(** The document [{Host: a, port: 80}]. *)
Definition tree_two : generic :=
  Mapping (<[SString "port" := Scalar (SInt 80)]>
             {[SString "Host" := Scalar (SString "a")]}).

(** ** Queries on the provider *)

(** [NewValue(provider, key, value, found)] is declared outside [yaml.go]:
    a value is kept as the arguments it is built from. *)
Inductive Value : Type :=
  | NewValue (provider : yamlConfigProvider) (k : string) (v : generic)
             (found : bool).

Definition valueOf (x : Value) : generic :=
  match x with NewValue _ _ v _ => v end.

Definition foundOf (x : Value) : bool :=
  match x with NewValue _ _ _ found => found end.

Section Queries.
Variable rangeMap : gmap scalar generic → list (scalar * generic).
Context {fold : Folding}.
Variable Root : string.

(** [y.getNode(key)].  The receiver is a copy of the provider: the search
    runs on the root node as the provider holds it, placed in memory at
    address 0, and what it caches is lost with the copy. *)
Definition getNode (y : yamlConfigProvider) (k : string)
    : option (option ptr * store) :=
  if String.eqb k Root then Some (Some 0%nat, load y)
  else Find rangeMap 0%nat k (load y).

(** [y.Get(key)]. *)
Definition Get (y : yamlConfigProvider) (k : string) : option Value :=
  '(node, st) ← getNode y k;
  match node with
  | None => Some (NewValue y k Absent false)
  | Some q => n ← nodes st !! q; Some (NewValue y k (value n) true)
  end.
End Queries.

(** ** Providers from files *)

(** An [*os.File] that [os.Open] returned: its name, what
    [unmarshalYAMLValue] makes of its content, and the error of its
    [Close]. *)
Record osFile : Type := mkFile {
  osName : string;
  osContent : res generic;
  osClose : option error
}.

(** The file as the [io.Reader] that the provider reads. *)
Definition fileReader (f : osFile) : reader :=
  mkReader (Some (osName f)) (osContent f).

Section Files.
(** [os.Open] on the file system of the call: the file and the error it
    returns. *)
Variable osOpen : string → option osFile * option error.

(** The loop of [filesToReaders], with the readers opened so far.  Beside
    its result it gives the files it closed, in the order of the calls. *)
Fixpoint openAll (readers : list osFile) (files : list string)
    : res (list osFile) * list osFile :=
  match files with
  | [] => (Ok readers, [])
  | v :: rest =>
    match osOpen v with
    | (_, Some err) => (Err err, readers)
    | (Some reader, None) => openAll (readers ++ [reader]) rest
    | (None, None) => openAll readers rest
    end
  end.

Definition filesToReaders (files : list string)
    : res (list osFile) * list osFile :=
  openAll [] files.

(** Every name opens, to the file at the same place of [fs]. *)
Definition opens (files : list string) (fs : list osFile) : Prop :=
  Forall2 (λ name f, osOpen name = (Some f, None)) files fs.

(** The loop that closes the readers after the provider is built:
    [nerr := r.Close(); if err == nil { err = nerr }]. *)
Definition closeAll (err : option error) (readClosers : list osFile)
    : option error :=
  foldl (λ err r, match err with None => osClose r | Some _ => err end)
        err readClosers.

(** The body that [NewYAMLProviderFromFiles] and [NewYAMLProviderWithExpand]
    share; [build] is the constructor over readers that each of them
    calls.  The result is the provider and the error returned, and the
    files closed. *)
Definition fromFiles {P : Type}
    (build : list reader → option P * option error) (files : list string)
    : (option P * option error) * list osFile :=
  match filesToReaders files with
  | (Err err, closed) => ((None, Some err), closed)
  | (Ok readClosers, closed) =>
    let '(provider, err) := build (fileReader <$> readClosers) in
    ((provider, closeAll err readClosers), closed ++ readClosers)
  end.

(** [NewYAMLProviderFromReader]; [newCachedProvider] and the [Provider] it
    returns are declared outside [yaml.go]. *)
Definition NewYAMLProviderFromReader {P : Type} (Root : string)
    (newCachedProvider : yamlConfigProvider → option P * option error)
    (readers : list reader) : option P * option error :=
  match newYAMLProviderCore Root readers with
  | Ok p => newCachedProvider p
  | Err err => (None, Some err)
  end.

Definition NewYAMLProviderFromFiles {P : Type} (Root : string)
    (newCachedProvider : yamlConfigProvider → option P * option error)
    (files : list string) : (option P * option error) * list osFile :=
  fromFiles (NewYAMLProviderFromReader Root newCachedProvider) files.
End Files.

(** ** Failures of the constructor *)

(** The error with which a reader that does not parse stops the loop. *)
Definition parseFailure (v : reader) (err : error) : error :=
  match fileName v with
  | Some name => InFile name err
  | None => err
  end.

(** ** Instances for the examples *)

(** Errors of the operating system are carried as [ParseError] with their
    message. *)
Definition tree_list : generic := Sequence [Scalar (SInt 5); Scalar (SInt 6)].

Definition reader_Ab : reader := mkReader None (Ok tree_Ab).
Definition reader_bad : reader :=
  mkReader (Some "bad.yaml") (Err (ParseError "yaml: did not find expected key")).
Definition provider_Ab : yamlConfigProvider :=
  mkProvider (mkNode objectNode EmptyString tree_Ab None).

Definition file_base : osFile := mkFile "base.yaml" (Ok tree_Ab) None.
Definition file_bad : osFile :=
  mkFile "bad.yaml" (Err (ParseError "yaml: did not find expected key"))
         (Some (ParseError "close bad.yaml: file already closed")).
Definition open_example (name : string) : option osFile * option error :=
  if String.eqb name "base.yaml" then (Some file_base, None)
  else if String.eqb name "bad.yaml" then (Some file_bad, None)
  else (None, Some (ParseError "open: no such file or directory")).

(** ** Measures used in the proofs *)

(** The size of a value, for induction through nested maps and lists. *)
Fixpoint gsize (v : generic) : nat :=
  match v with
  | Sequence l => S (foldr (λ x acc, gsize x + acc)%nat 0%nat l)
  | Mapping m => S (map_fold (λ _ x acc, gsize x + acc)%nat 0%nat m)
  | _ => 1%nat
  end.

(** * Properties *)

(** ** Strings *)

Section Strings.
Implicit Types (s t u : string) (c : ascii) (n : nat).

Lemma len_cons c s : len (String c s) = len s + 1.
Proof. unfold len. simpl. lia. Qed.

Lemma len_nonneg s : 0 ≤ len s.
Proof. unfold len. lia. Qed.

Lemma len_app s t : len (s +:+ t) = len s + len t.
Proof.
  induction s as [|c s IH]; [done|].
  change (String c s +:+ t) with (String c (s +:+ t)).
  rewrite !len_cons, IH. lia.
Qed.

Lemma str_take_app s t : str_take (String.length s) (s +:+ t) = s.
Proof. induction s as [|c s IH]; [by destruct t|]. simpl. by rewrite IH. Qed.

Lemma str_drop_app s t : str_drop (String.length s) (s +:+ t) = t.
Proof. induction s as [|c s IH]; [by destruct t|]. done. Qed.

Lemma slice_to_in_range s i :
  0 ≤ i ≤ len s → slice_to s i = Some (str_take (Z.to_nat i) s).
Proof.
  intros [??]. unfold slice_to.
  by rewrite (proj2 (Z.leb_le 0 i)), (proj2 (Z.leb_le i (len s))).
Qed.

Lemma slice_from_in_range s i :
  0 ≤ i ≤ len s → slice_from s i = Some (str_drop (Z.to_nat i) s).
Proof.
  intros [??]. unfold slice_from.
  by rewrite (proj2 (Z.leb_le 0 i)), (proj2 (Z.leb_le i (len s))).
Qed.

Lemma slice_to_app s t : slice_to (s +:+ t) (len s) = Some s.
Proof.
  rewrite slice_to_in_range.
  - unfold len. by rewrite Nat2Z.id, str_take_app.
  - rewrite len_app. pose proof (len_nonneg s). pose proof (len_nonneg t). lia.
Qed.

Lemma slice_from_app_cons s c t :
  slice_from (s +:+ String c t) (len s + 1) = Some t.
Proof.
  rewrite slice_from_in_range.
  - replace (Z.to_nat (len s + 1)) with (String.length (s +:+ String c EmptyString)).
    + replace (s +:+ String c t) with ((s +:+ String c EmptyString) +:+ t).
      * apply f_equal, str_drop_app.
      * induction s as [|a s IH]; [done|].
        change (String a s +:+ ?x) with (String a (s +:+ x)). by rewrite <-IH.
    + pose proof (len_app s (String c EmptyString)) as H. unfold len in *.
      simpl in H. lia.
  - rewrite len_app, len_cons. pose proof (len_nonneg s).
    pose proof (len_nonneg t). lia.
Qed.

Lemma Index_ge s sub : -1 ≤ Index s sub.
Proof.
  induction s as [|c s IH]; cbn [Index].
  - destruct (String.prefix sub EmptyString); lia.
  - destruct (String.prefix sub (String c s)); [lia|].
    destruct (Z.eqb_spec (Index s sub) (-1)); lia.
Qed.

(** The first separator of [key:def] is the one written after a key that
    holds none. *)
Lemma Index_envSeparator key def :
  Index key _envSeparator = -1 →
  Index (key +:+ String ":" def) _envSeparator = len key.
Proof.
  induction key as [|c key IH].
  { intros _. change (EmptyString +:+ ?x) with x.
    unfold _envSeparator. cbn [Index String.prefix].
    destruct (ascii_dec ":" ":"); [by destruct def|done]. }
  change (String c key +:+ ?x) with (String c (key +:+ x)).
  unfold _envSeparator in *. cbn [Index String.prefix].
  destruct (ascii_dec ":" c) as [Hc|Hc].
  { assert (String.prefix EmptyString key = true) as -> by by destruct key.
    done. }
  destruct (Z.eqb_spec (Index key ":") (-1)) as [Hk|Hk];
    [|pose proof (Index_ge key ":"); lia].
  intros _. rewrite (IH Hk), len_cons.
  pose proof (len_nonneg key).
  destruct (Z.eqb_spec (len key) (-1)); lia.
Qed.
End Strings.

(** ** Case folding and separators *)

Section Fold.
Implicit Types (s t u : string) (c a b : ascii) (n : nat).

Lemma fold_eq_canon a b :
  fold_eq a b = true ↔ canon (N_of_ascii a) = canon (N_of_ascii b).
Proof.
  unfold fold_eq, canon.
  pose proof (N_ascii_bounded a). pose proof (N_ascii_bounded b).
  destruct (N.eqb_spec (N_of_ascii a) (N_of_ascii b)) as [->|Hne]; [done|].
  rewrite !andb_true_iff, !N.leb_le, N.eqb_eq.
  repeat match goal with
  | |- context [(?x <=? ?y)%N] => destruct (N.leb_spec x y)
  end; simpl; lia.
Qed.

Lemma fold_eq_refl a : fold_eq a a = true.
Proof. by apply fold_eq_canon. Qed.

Lemma fold_eq_sym a b : fold_eq a b = true → fold_eq b a = true.
Proof. rewrite !fold_eq_canon. congruence. Qed.

Lemma fold_eq_trans a b c :
  fold_eq a b = true → fold_eq b c = true → fold_eq a c = true.
Proof. rewrite !fold_eq_canon. congruence. Qed.

Lemma fold_eq_separator a b :
  fold_eq a b = true → a = "."%char → b = "."%char.
Proof.
  rewrite fold_eq_canon. intros H ->.
  rewrite <-(ascii_N_embedding b). pose proof (N_ascii_bounded b).
  assert (N_of_ascii b = 46%N) as ->; [|done].
  revert H. unfold canon. change (N_of_ascii ".") with 46%N. simpl.
  destruct (N.leb_spec 65 (N_of_ascii b)), (N.leb_spec (N_of_ascii b) 90);
    simpl; lia.
Qed.

Lemma EqualFold_ascii_refl s : EqualFold_ascii s s = true.
Proof. induction s; simpl; [done|]. by rewrite fold_eq_refl. Qed.

Lemma EqualFold_ascii_sym s t : EqualFold_ascii s t = true → EqualFold_ascii t s = true.
Proof.
  revert t. induction s as [|a s IH]; intros [|b t]; simpl; try done.
  intros [??]%andb_true_iff. rewrite fold_eq_sym by done. by apply IH.
Qed.

Lemma EqualFold_ascii_trans s t u :
  EqualFold_ascii s t = true → EqualFold_ascii t u = true → EqualFold_ascii s u = true.
Proof.
  revert t u. induction s as [|a s IH]; intros [|b t] [|c u]; simpl; try done.
  intros [??]%andb_true_iff [??]%andb_true_iff.
  rewrite (fold_eq_trans a b c) by done. by apply (IH t).
Qed.

Lemma prefix_separator a s :
  String.prefix _separator (String a s) = bool_decide (a = "."%char).
Proof.
  unfold _separator. cbn [String.prefix].
  destruct (ascii_dec "." a) as [<-|Hne].
  - rewrite bool_decide_eq_true_2 by done. by destruct s.
  - by rewrite bool_decide_eq_false_2.
Qed.

Lemma LastIndex_cons a s :
  LastIndex (String a s) _separator =
  if LastIndex s _separator =? -1
  then (if bool_decide (a = "."%char) then 0 else -1)
  else LastIndex s _separator + 1.
Proof. cbn [LastIndex]. by rewrite prefix_separator. Qed.

Lemma LastIndex_range s : -1 ≤ LastIndex s _separator < len s.
Proof.
  induction s as [|a s IH]; [done|].
  rewrite LastIndex_cons, len_cons.
  destruct (Z.eqb_spec (LastIndex s _separator) (-1)); [|lia].
  case_bool_decide; lia.
Qed.

Lemma str_take_length n s :
  (n ≤ String.length s)%nat → String.length (str_take n s) = n.
Proof.
  revert s. induction n as [|n IH]; intros [|a s]; simpl; try done; [lia|].
  intros. f_equal. apply IH. lia.
Qed.

Lemma str_take_take n m s :
  (n ≤ m)%nat → str_take n (str_take m s) = str_take n s.
Proof.
  revert m s. induction n as [|n IH]; intros [|m] [|a s]; simpl; try done;
    try lia.
  intros. f_equal. apply IH. lia.
Qed.

Lemma str_take_all n s : (String.length s ≤ n)%nat → str_take n s = s.
Proof.
  revert s. induction n as [|n IH]; intros [|a s]; simpl; try done; [lia|].
  intros. f_equal. apply IH. lia.
Qed.

Lemma str_drop_length n s :
  String.length (str_drop n s) = (String.length s - n)%nat.
Proof.
  revert s. induction n as [|n IH]; intros [|a s]; simpl; try done. 
Qed.

(** A prefix of a path is the whole path exactly when nothing was cut. *)
Lemma str_take_eqb n s :
  String.eqb (str_take n s) s = bool_decide (String.length s ≤ n)%nat.
Proof.
  destruct (String.eqb_spec (str_take n s) s) as [Heq|Hne].
  - rewrite bool_decide_eq_true_2; [done|].
    destruct (decide (n ≤ String.length s)%nat) as [Hle|]; [|lia].
    apply str_take_length in Hle. rewrite Heq in Hle. lia.
  - rewrite bool_decide_eq_false_2; [done|].
    intros Hle. by rewrite str_take_all in Hne.
Qed.
Lemma fold_eq_digit a b : is_digit a = true → fold_eq a b = true → a = b.
Proof.
  unfold is_digit. rewrite fold_eq_canon, andb_true_iff, !N.leb_le.
  intros [Hlo Hhi] Hc.
  rewrite <-(ascii_N_embedding a), <-(ascii_N_embedding b).
  f_equal. revert Hc. unfold canon.
  repeat match goal with
  | |- context [(?x <=? ?y)%N] => destruct (N.leb_spec x y)
  end; simpl; lia.
Qed.

Lemma EqualFold_ascii_digits s t :
  all_digits s = true → EqualFold_ascii s t = true → s = t.
Proof.
  revert t. induction s as [|a s IH]; intros [|b t]; simpl; try done.
  intros [??]%andb_true_iff [??]%andb_true_iff.
  f_equal; [by apply fold_eq_digit|by apply IH].
Qed.

(** The ASCII path goes through a separator. *)
Lemma EqualFold_ascii_split s u t :
  EqualFold_ascii (s +:+ String "." u) t = true →
  ∃ s' u', t = s' +:+ String "." u' ∧
           EqualFold_ascii s s' = true ∧ EqualFold_ascii u u' = true.
Proof.
  revert t. induction s as [|a s IH]; intros [|b t]; try done.
  - change (EmptyString +:+ ?x) with x. simpl.
    intros [Hb Hu]%andb_true_iff.
    rewrite (fold_eq_separator "." b Hb eq_refl). by exists EmptyString, t.
  - change (String a s +:+ ?x) with (String a (s +:+ x)). simpl.
    intros [Hab Hs]%andb_true_iff.
    destruct (IH t Hs) as (s' & u' & -> & Hs' & Hu').
    exists (String b s'), u'. split; [done|]. split; [|done].
    simpl. by rewrite Hab.
Qed.

Lemma EqualFold_ascii_join s s' u u' :
  EqualFold_ascii s s' = true → EqualFold_ascii u u' = true →
  EqualFold_ascii (s +:+ String "." u) (s' +:+ String "." u') = true.
Proof.
  revert s'. induction s as [|a s IH]; intros [|b s'] Hs Hu;
    [|by simpl in Hs..|].
  - change (EqualFold_ascii (String "." u) (String "." u') = true).
    cbn [EqualFold_ascii]. by rewrite fold_eq_refl.
  - simpl in Hs. apply andb_true_iff in Hs as [Hab Hs].
    change (EqualFold_ascii (String a (s +:+ String "." u))
                            (String b (s' +:+ String "." u')) = true).
    cbn [EqualFold_ascii]. rewrite Hab. by apply IH.
Qed.
End Fold.

(** The ASCII path satisfies what is used of the comparison. *)
#[global] Instance ascii_folding_laws : FoldingLaws.
Proof.
  split; unfold EqualFold, ascii_folding.
  - apply EqualFold_ascii_refl.
  - apply EqualFold_ascii_sym.
  - apply EqualFold_ascii_trans.
  - by intros [|b t].
  - intros a b t. split.
    + apply EqualFold_ascii_split.
    + intros (a' & b' & -> & Ha & Hb). by apply EqualFold_ascii_join.
  - apply EqualFold_ascii_digits.
  - done.
Qed.

(** ** The merge engine *)

Section Merge.
Implicit Types (d s m : gmap scalar generic) (k : scalar).
Implicit Types (v a b dst src : generic).

Lemma mergeMaps_absent_l src : mergeMaps Absent src = Ok src.
Proof. by destruct src. Qed.

Lemma mergeMaps_absent_r dst : mergeMaps dst Absent = Ok dst.
Proof. by destruct dst. Qed.

Lemma mergeMaps_overwrite dst src :
  is_mapping src = false → is_absent src = false →
  mergeMaps dst src = Ok src.
Proof. by destruct src, dst. Qed.

Lemma mergeMaps_conflict dst s :
  is_mapping dst = false → is_absent dst = false →
  mergeMaps dst (Mapping s) = Err (MergeConflict dst (Mapping s)).
Proof. by destruct dst. Qed.

Lemma mergeMaps_mappings d s :
  mergeMaps (Mapping d) (Mapping s) =
  match map_fold (mergeEntry mergeMaps) (Ok d) s with
  | Ok m => Ok (Mapping m)
  | Err e => Err e
  end.
Proof. done. Qed.

Lemma mergeEntry_fold d s :
  match map_fold (mergeEntry mergeMaps) (Ok d) s with
  | Ok m => ∀ k, merged_at d s k (m !! k)
  | Err e => ∃ k a b, d !! k = Some a ∧ s !! k = Some b ∧
                      mergeMaps a b = Err e
  end.
Proof.
  apply (map_fold_weak_ind (λ r s, match r with
    | Ok m => ∀ k, merged_at d s k (m !! k)
    | Err e => ∃ k a b, d !! k = Some a ∧ s !! k = Some b ∧
                        mergeMaps a b = Err e
    end)).
  - intros k. unfold merged_at. by rewrite lookup_empty.
  - intros i x s' [m|e] Hi IH; simpl.
    + pose proof (IH i) as Hmi. unfold merged_at in Hmi.
      rewrite Hi in Hmi. rewrite Hmi.
      assert (Hins : ∀ r, mergeMaps (default Absent (d !! i)) x = Ok r →
                ∀ k, merged_at d (<[i:=x]> s') k (<[i:=r]> m !! k)).
      { intros r Hr k. unfold merged_at.
        destruct (decide (i = k)) as [->|Hne].
        - rewrite !lookup_insert_eq. eauto.
        - rewrite !lookup_insert_ne by done. apply IH. }
      destruct (default Absent (d !! i)) as [|y|l|dm] eqn:Hold;
        [apply Hins, mergeMaps_absent_l|..];
        (destruct (mergeMaps _ x) as [tmp|e] eqn:Hm; [by apply Hins|];
         eexists i, _, x; rewrite lookup_insert_eq;
         destruct (d !! i); simplify_eq/=; done).
    + destruct IH as (k & a & b & Hd & Hs & Hm).
      exists k, a, b. split_and!; [done| |done].
      rewrite lookup_insert_ne; [done|]. intros ->. congruence.
Qed.

Lemma mergeEntry_fold_nil_key d k l :
  d !! k = Some Absent → NoDup l.*1 →
  ∃ r1 r2,
    foldr (uncurry (mergeEntry mergeMaps)) (Ok d) l = r1 ∧
    foldr (uncurry (mergeEntry mergeMaps)) (Ok (delete k d)) l = r2 ∧
    if decide (k ∈ l.*1) then r1 = r2
    else r1 = r2 ∨
         ∃ m, r1 = Ok m ∧ r2 = Ok (delete k m) ∧ m !! k = Some Absent.
Proof.
  intros Hk. induction l as [|[i x] l IH]; intros Hnd; simpl;
    eexists _, _; (split; [done|]); (split; [done|]).
  { right. eauto. }
  apply NoDup_cons in Hnd as [Hi Hnd].
  destruct (IH Hnd) as (r1 & r2 & Hr1 & Hr2 & IH'). clear IH.
  rewrite Hr1, Hr2. clear Hr1 Hr2. simpl in Hi.
  assert (Hsame : r1 = r2 → mergeEntry mergeMaps i x r1 = mergeEntry mergeMaps i x r2)
    by congruence.
  destruct (decide (k ∈ l.*1)) as [Hin|Hnin].
  { rewrite decide_True by (simpl; by right). auto. }
  assert (Hstep : (∃ m, r1 = Ok m ∧ r2 = Ok (delete k m) ∧ m !! k = Some Absent) →
    if decide (i = k)
    then mergeEntry mergeMaps i x r1 = mergeEntry mergeMaps i x r2
    else ∃ m, mergeEntry mergeMaps i x r1 = mergeEntry mergeMaps i x r2 ∨
              (mergeEntry mergeMaps i x r1 = Ok m ∧
              mergeEntry mergeMaps i x r2 = Ok (delete k m) ∧
              m !! k = Some Absent)).
  { intros (m & -> & -> & Hm). case_decide as Hik.
    - subst i. simpl. rewrite Hm, lookup_delete_eq. simpl.
      by rewrite insert_delete_eq.
    - simpl. rewrite lookup_delete_ne by done.
      assert (Hkeep : ∀ y, ∃ m',
                (Ok (<[i:=y]> m) : res (gmap scalar generic)) =
                  Ok (<[i:=y]> (delete k m)) ∨
                Ok (<[i:=y]> m) = Ok m' ∧
                Ok (<[i:=y]> (delete k m)) = Ok (delete k m') ∧
                m' !! k = Some Absent).
      { intros y. exists (<[i:=y]> m). right.
        by rewrite delete_insert_ne, lookup_insert_ne. }
      destruct (default Absent (m !! i)) eqn:Hold; [apply Hkeep|..];
        (destruct (mergeMaps _ x) as [tmp|e]; [apply Hkeep|exists m; by left]). }
  destruct (decide (i = k)) as [->|Hik].
  - rewrite decide_True by (simpl; left).
    destruct IH' as [?|IH']; [auto|]. exact (Hstep IH').
  - rewrite decide_False by (simpl; by intros [?|?]%elem_of_cons).
    destruct IH' as [?|IH']; [auto|].
    destruct (Hstep IH') as (m & [?|?]); eauto.
Qed.

Lemma mergeMaps_nil_key_absent d s k v :
  d !! k = Some Absent → s !! k = Some v →
  mergeMaps (Mapping d) (Mapping s) =
  mergeMaps (Mapping (delete k d)) (Mapping s).
Proof.
  intros Hd Hs. rewrite !mergeMaps_mappings, !map_fold_foldr.
  destruct (mergeEntry_fold_nil_key d k (map_to_list s) Hd
              (NoDup_fst_map_to_list s)) as (r1 & r2 & -> & -> & H).
  rewrite decide_True in H; [by rewrite H|].
  apply list_elem_of_fmap. exists (k, v). split; [done|].
  by apply elem_of_map_to_list.
Qed.

(** C1 (the code departs from the claim): a mapping in [dst] met by a
    scalar in [src] is overwritten without an error; only the other
    direction, a mapping in [src] over a scalar in [dst], is refused. *)
Theorem mergeMaps_mapping_overwritten_by_scalar :
  mergeMaps (Mapping {[SString "a" := Scalar (SInt 1)]})
            (Scalar (SString "x"))
  = Ok (Scalar (SString "x")) ∧
  mergeMaps (Scalar (SString "x"))
            (Mapping {[SString "a" := Scalar (SInt 1)]})
  = Err (MergeConflict (Scalar (SString "x"))
           (Mapping {[SString "a" := Scalar (SInt 1)]})).
Proof. split; reflexivity. Qed.

(** C2, as stated, fails: two mappings whose values at a shared key cannot
    be merged do not merge into a mapping. *)
Lemma mergeMaps_nested_conflict :
  is_mapping (Mapping {[SString "a" := Scalar (SString "x")]}) = true ∧
  is_mapping
    (Mapping {[SString "a" := Mapping {[SString "b" := Scalar (SInt 1)]}]})
    = true ∧
  mergeMaps
    (Mapping {[SString "a" := Scalar (SString "x")]})
    (Mapping {[SString "a" := Mapping {[SString "b" := Scalar (SInt 1)]}]})
  = Err (MergeConflict (Scalar (SString "x"))
           (Mapping {[SString "b" := Scalar (SInt 1)]})).
Proof. split_and!; reflexivity. Qed.

(** C2 (amended): the merge of two mappings fails exactly with the error of
    a recursive merge at a key present in both; otherwise it is a mapping
    whose keys are the union of both, where a key only in [src] has the
    value of [src], a key only in [dst] keeps its value, and a key in both
    has the recursive merge of the two values. *)
Theorem mergeMaps_deep_merge d s :
  match mergeMaps (Mapping d) (Mapping s) with
  | Ok r =>
    ∃ m, r = Mapping m ∧ dom m = dom d ∪ dom s ∧
      ∀ k,
        (s !! k = None → m !! k = d !! k) ∧
        (∀ b, d !! k = None → s !! k = Some b → m !! k = Some b) ∧
        (∀ a b, d !! k = Some a → s !! k = Some b →
           ∃ r', mergeMaps a b = Ok r' ∧ m !! k = Some r')
  | Err e =>
    ∃ k a b, d !! k = Some a ∧ s !! k = Some b ∧ mergeMaps a b = Err e
  end.
Proof.
  rewrite mergeMaps_mappings. pose proof (mergeEntry_fold d s) as H.
  destruct (map_fold _ _ _) as [m|e]; [|done].
  exists m. split; [done|].
  assert (Hk : ∀ k,
    (s !! k = None → m !! k = d !! k) ∧
    (∀ b, d !! k = None → s !! k = Some b → m !! k = Some b) ∧
    (∀ a b, d !! k = Some a → s !! k = Some b →
       ∃ r', mergeMaps a b = Ok r' ∧ m !! k = Some r')).
  { intros k. specialize (H k). unfold merged_at in H.
    split_and!.
    - intros Hs. by rewrite Hs in H.
    - intros b Hd Hs. rewrite Hs, Hd in H. simpl in H.
      destruct H as (r & Hr & ->). rewrite mergeMaps_absent_l in Hr.
      congruence.
    - intros a b Hd Hs. rewrite Hs, Hd in H. simpl in H.
      destruct H as (r & Hr & ->). eauto. }
  split; [|done].
  apply set_eq. intros k. rewrite elem_of_union, !elem_of_dom.
  destruct (Hk k) as (H1 & H2 & H3).
  destruct (s !! k) as [b|] eqn:Hs, (d !! k) as [a|] eqn:Hd.
  - destruct (H3 a b) as (r & _ & ->); [done..|]. split; eauto.
  - rewrite (H2 b) by done. split; eauto.
  - rewrite H1 by done. split; eauto.
  - rewrite H1 by done. split; [intros [? [=]]|intros [[? [=]]|[? [=]]]].
Qed.

(** The deep-merge law of the specification, computed. *)
Example mergeMaps_deep_merge_law :
  mergeMaps
    (Mapping {[SString "a" :=
       Mapping (<[SString "x" := Scalar (SInt 1)]>
                  {[SString "y" := Scalar (SInt 2)]})]})
    (Mapping {[SString "a" :=
       Mapping (<[SString "y" := Scalar (SInt 9)]>
                  {[SString "z" := Scalar (SInt 3)]})]})
  = Ok (Mapping {[SString "a" :=
       Mapping (<[SString "x" := Scalar (SInt 1)]>
                  (<[SString "y" := Scalar (SInt 9)]>
                     {[SString "z" := Scalar (SInt 3)]}))]}).
Proof. vm_compute. reflexivity. Qed.

(** C3: a sequence or scalar [src] replaces a [dst] that is a sequence, a
    scalar or absent: the result is [src] itself. *)
Theorem mergeMaps_overwrite_law dst src :
  is_mapping src = false → is_absent src = false →
  is_mapping dst = false →
  mergeMaps dst src = Ok src.
Proof. intros Hm Ha _. by apply mergeMaps_overwrite. Qed.

(** C4: nil is a two-sided identity of the merge, and a provider built
    from no document has the nil root. *)
Theorem mergeMaps_absent_identity :
  (∀ v, mergeMaps Absent v = Ok v ∧ mergeMaps v Absent = Ok v) ∧
  mergeMaps Absent Absent = Ok Absent ∧
  ∀ Root, newYAMLProviderCore Root [] =
          Ok (mkProvider (mkNode valueNode Root Absent None)).
Proof.
  split_and!; [|done..].
  intros v. split; [apply mergeMaps_absent_l|apply mergeMaps_absent_r].
Qed.

(** C9: a key that [dst] maps to nil is merged as if [dst] lacked it: the
    source value is stored at the key without any recursive call,
    whatever it is; the merge is the one of [dst] without the key; no
    conflict it reports is at that key. *)
Theorem mergeMaps_nil_destination_key d s k v :
  d !! k = Some Absent → s !! k = Some v →
  (∀ rec dstMap, dstMap !! k = Some Absent →
     mergeEntry rec k v (Ok dstMap) = Ok (<[k:=v]> dstMap)) ∧
  mergeMaps (Mapping d) (Mapping s) =
    mergeMaps (Mapping (delete k d)) (Mapping s) ∧
  match mergeMaps (Mapping d) (Mapping s) with
  | Ok r => ∃ m, r = Mapping m ∧ m !! k = Some v
  | Err e =>
    ∃ k' a b, k' ≠ k ∧ d !! k' = Some a ∧ s !! k' = Some b ∧
              mergeMaps a b = Err e
  end.
Proof.
  intros Hd Hs. split_and!.
  - intros rec dstMap Hk. unfold mergeEntry. by rewrite Hk.
  - by apply (mergeMaps_nil_key_absent d s k v).
  - rewrite mergeMaps_mappings. pose proof (mergeEntry_fold d s) as H.
    destruct (map_fold _ _ _) as [m|e].
    + exists m. split; [done|]. specialize (H k). unfold merged_at in H.
      rewrite Hs, Hd in H. simpl in H. destruct H as (r & Hr & ->).
      rewrite mergeMaps_absent_l in Hr. congruence.
    + destruct H as (k' & a & b & Hd' & Hs' & Hm).
      exists k', a, b. split_and!; [|done..].
      intros ->. rewrite Hd in Hd'. injection Hd' as <-.
      by rewrite mergeMaps_absent_l in Hm.
Qed.
End Merge.

Lemma mergeMaps_overwrite_law_witness :
  is_mapping (Sequence [Scalar (SInt 2)]) = false ∧
  is_absent (Sequence [Scalar (SInt 2)]) = false ∧
  is_mapping (Sequence [Scalar (SInt 1); Scalar (SInt 3)]) = false ∧
  mergeMaps (Sequence [Scalar (SInt 1); Scalar (SInt 3)])
            (Sequence [Scalar (SInt 2)])
  = Ok (Sequence [Scalar (SInt 2)]).
Proof.
  split_and!; [reflexivity..|].
  apply mergeMaps_overwrite_law; reflexivity.
Defined.

Lemma mergeMaps_nil_destination_key_witness :
  let d : gmap scalar generic := {[SString "a" := Absent]} in
  let v := Mapping {[SString "b" := Scalar (SInt 1)]} in
  let s : gmap scalar generic := {[SString "a" := v]} in
  d !! SString "a" = Some Absent ∧ s !! SString "a" = Some v ∧
  mergeMaps (Mapping d) (Mapping s) = Ok (Mapping s).
Proof.
  intros d v s.
  assert (Hd : d !! SString "a" = Some Absent) by reflexivity.
  assert (Hs : s !! SString "a" = Some v) by reflexivity.
  split_and!; [done..|].
  destruct (mergeMaps_nil_destination_key d s (SString "a") v Hd Hs)
    as (_ & -> & _).
  reflexivity.
Defined.

(** ** Variable resolution *)

Section Replace.
Variable lookUp : string → string * bool.

Lemma replace_no_separator key :
  Index key _envSeparator = -1 →
  replace lookUp key =
  let '(envVal, ok) := lookUp key in
  if ok then Some (Ok envVal) else Some (Err (DefaultEmpty key)).
Proof. intros H. unfold replace. rewrite H. simpl. by destruct (lookUp key) as [? []]. Qed.

Lemma replace_with_default key def :
  Index key _envSeparator = -1 →
  replace lookUp (key +:+ String ":" def) =
  let '(envVal, ok) := lookUp key in
  if ok then Some (Ok envVal)
  else if String.eqb def EmptyString then Some (Err (DefaultEmpty key))
  else if String.eqb def _emptyDefault then Some (Ok EmptyString)
  else Some (Ok def).
Proof.
  intros H. unfold replace. rewrite (Index_envSeparator _ _ H).
  pose proof (len_nonneg key).
  destruct (Z.eqb_spec (len key) (-1)); [lia|].
  rewrite slice_to_app. simpl. rewrite slice_from_app_cons. done.
Qed.

(** C6: the resolution of a token with key [K] and default text [D],
    written [K] alone when there is no default and [K:D] otherwise. *)
Theorem replace_resolution (K D body v : string) (found : bool) :
  Index K _envSeparator = -1 →
  body = K +:+ String ":" D ∨ (D = EmptyString ∧ body = K) →
  lookUp K = (v, found) →
  replace lookUp body =
  Some (if found then Ok v
        else if decide (D = EmptyString) then Err (DefaultEmpty K)
        else if decide (D = _emptyDefault) then Ok EmptyString
        else Ok D).
Proof.
  intros HK [->|[-> ->]] Hl.
  - rewrite replace_with_default, Hl by done. destruct found; [done|].
    destruct (String.eqb_spec D EmptyString) as [->|Hne]; [done|].
    rewrite decide_False by done.
    destruct (String.eqb_spec D _emptyDefault) as [->|Hne']; [done|].
    by rewrite decide_False.
  - rewrite replace_no_separator, Hl by done. by destruct found.
Qed.

(** C10: a body [KEY:] with nothing after the separator resolves like
    [KEY]; when the lookup finds nothing, it is the undefined-variable
    error. *)
Theorem replace_empty_default_is_no_default (K : string) :
  Index K _envSeparator = -1 →
  replace lookUp (K +:+ ":") = replace lookUp K ∧
  (∀ v, lookUp K = (v, false) →
        replace lookUp (K +:+ ":") = Some (Err (DefaultEmpty K))).
Proof.
  intros HK. rewrite (replace_no_separator K HK).
  change (K +:+ ":") with (K +:+ String ":" EmptyString).
  rewrite (replace_with_default K EmptyString HK). split.
  - by destruct (lookUp K) as [? []].
  - by intros v ->.
Qed.
End Replace.

(** The expansion laws of the specification on one token body. *)
Example replace_examples :
  replace (λ _, (EmptyString, false)) "P:8080" = Some (Ok "8080") ∧
  replace (λ _, ("9090", true)) "P:8080" = Some (Ok "9090") ∧
  replace (λ _, (EmptyString, false)) (String "P" (String ":" _emptyDefault))
    = Some (Ok EmptyString) ∧
  replace (λ _, (EmptyString, false)) "P" = Some (Err (DefaultEmpty "P")).
Proof. split_and!; reflexivity. Qed.

Lemma replace_resolution_witness :
  Index "P" _envSeparator = -1 ∧
  replace (λ _, (EmptyString, false)) "P:8080" = Some (Ok "8080") ∧
  replace (λ _, ("9090", true)) "P:8080" = Some (Ok "9090").
Proof.
  split_and!; [reflexivity| |].
  - apply (replace_resolution (λ _, (EmptyString, false))
             "P" "8080" "P:8080" EmptyString false);
      [reflexivity|left; reflexivity|reflexivity].
  - apply (replace_resolution (λ _, ("9090", true))
             "P" "8080" "P:8080" "9090" true);
      [reflexivity|left; reflexivity|reflexivity].
Defined.

Lemma replace_empty_default_is_no_default_witness :
  Index "KEY" _envSeparator = -1 ∧
  replace (λ _, (EmptyString, false)) "KEY:" =
    replace (λ _, (EmptyString, false)) "KEY" ∧
  replace (λ _, (EmptyString, false)) "KEY:" =
    Some (Err (DefaultEmpty "KEY")).
Proof.
  assert (H : Index "KEY" _envSeparator = -1) by reflexivity.
  destruct (replace_empty_default_is_no_default
              (λ _, (EmptyString, false)) "KEY" H) as [H1 H2].
  split_and!; [exact H|exact H1|exact (H2 EmptyString eq_refl)].
Defined.

(** ** The lookup tree *)

Local Close Scope Z_scope.

(** *** The heap under [Children] *)

Section Heap.
Variable rangeMap : gmap scalar generic → list (scalar * generic).
Implicit Types (st : store) (p q : ptr) (n m : yamlNode).
Implicit Types (e : string * generic) (es : list (string * generic)).
Implicit Types (c vs : list ptr) (a : slice).

Lemma appendChildren_spec p es : ∀ st n a c,
  nodes st !! p = Some n → children n = Some a → arrays st !! a = Some c →
  appendChildren p es st =
  Some (mkStore (nodes st ++ (mkChild <$> es))
          (<[a := c ++ seq (length (nodes st)) (length es)]> (arrays st))).
Proof.
  induction es as [|e es IH]; intros st n a c Hn Ha Hc; simpl.
  - rewrite !app_nil_r, list_insert_id by done. by destruct st.
  - unfold appendChild at 1. rewrite Hn. cbn [mbind option_bind].
    rewrite Ha. cbn [mbind option_bind]. rewrite Hc. cbn [mbind option_bind].
    erewrite (IH _ n a (c ++ [length (nodes st)])); simpl.
    + f_equal. f_equal.
      * by rewrite <-app_assoc.
      * rewrite list_insert_insert_eq, length_app, <-app_assoc. simpl.
        by rewrite Nat.add_1_r.
    + apply lookup_app_l_Some, Hn.
    + done.
    + apply list_lookup_insert_eq. by eapply lookup_lt_Some.
Qed.

Lemma expand_children p n st :
  nodeKind n = getNodeType (value n) →
  expand rangeMap p n st = appendChildren p (childrenOf rangeMap (value n)) st.
Proof. unfold expand. intros ->. by destruct (value n). Qed.

(** A call on a node whose cache is filled copies the cache. *)
Lemma Children_cached st p c :
  cache st p = Some c →
  Children rangeMap p st =
  Some (length (arrays st), mkStore (nodes st) (arrays st ++ [c])).
Proof.
  unfold cache, Children.
  destruct (nodes st !! p) as [n|] eqn:Hn; [simpl|done].
  destruct (children n) as [a|] eqn:Ha; [simpl|done].
  intros Hc. rewrite Hn. simpl. rewrite Ha. simpl. by rewrite Hc.
Qed.

(** The first call on a node allocates one node per child of its value,
    caches their pointers, and returns a copy of the cache. *)
Lemma Children_fresh st p n :
  nodes st !! p = Some n → children n = None →
  nodeKind n = getNodeType (value n) →
  Children rangeMap p st =
  Some (S (length (arrays st)),
        mkStore
          (<[p := mkNode (nodeKind n) (key n) (value n)
                    (Some (length (arrays st)))]> (nodes st)
             ++ (mkChild <$> childrenOf rangeMap (value n)))
          (arrays st ++
             [seq (length (nodes st))
                  (length (childrenOf rangeMap (value n)));
              seq (length (nodes st))
                  (length (childrenOf rangeMap (value n)))])).
Proof.
  intros Hn Hc Hk. unfold Children. rewrite Hn. simpl. rewrite Hc.
  rewrite expand_children by done.
  set (n' := mkNode _ _ _ _). set (es := childrenOf rangeMap (value n)).
  pose proof (lookup_lt_Some _ _ _ Hn) as Hp.
  erewrite (appendChildren_spec p es _ n' (length (arrays st)) []); simpl.
  - rewrite insert_app_r_alt, Nat.sub_diag by done. simpl.
    rewrite lookup_app_l by by rewrite length_insert.
    rewrite list_lookup_insert_eq by done. simpl.
    rewrite list_lookup_middle by done. simpl.
    by rewrite length_app, Nat.add_1_r, <-app_assoc, length_insert.
  - by apply list_lookup_insert_eq.
  - done.
  - by apply list_lookup_middle.
Qed.

Lemma extends_refl st : extends st st.
Proof. intros p n Hn. split; [by exists n|done]. Qed.

Lemma extends_trans st1 st2 st3 :
  extends st1 st2 → extends st2 st3 → extends st1 st3.
Proof.
  intros H12 H23 p n Hn.
  destruct (H12 p n Hn) as [(n2 & Hn2 & Hk2 & Hv2) Hc2].
  destruct (H23 p n2 Hn2) as [(n3 & Hn3 & Hk3 & Hv3) Hc3].
  split; [exists n3; split_and!; congruence|auto].
Qed.

Lemma holds_extends st st' q e :
  extends st st' → holds st q e → holds st' q e.
Proof.
  intros Hext (n & Hn & Hk & Hv).
  destruct (Hext q n Hn) as [(n' & Hn' & Hk' & Hv') _].
  exists n'. split_and!; congruence.
Qed.

Lemma cache_node st p c : cache st p = Some c → ∃ n, nodes st !! p = Some n.
Proof. unfold cache. destruct (nodes st !! p); [eauto|done]. Qed.

Lemma cache_extends st st' p c :
  extends st st' → cache st p = Some c → cache st' p = Some c.
Proof.
  intros Hext Hc. destruct (cache_node _ _ _ Hc) as [n Hn].
  by apply (Hext p n Hn).
Qed.

Lemma nodeAt_extends st st' pos : ∀ p q,
  extends st st' → nodeAt st p pos = Some q → nodeAt st' p pos = Some q.
Proof.
  induction pos as [|i pos IH]; intros p q Hext; simpl; [done|].
  destruct (cache st p) as [c|] eqn:Hc; [simpl|done].
  rewrite (cache_extends _ _ _ _ Hext Hc). simpl.
  destruct (c !! i) as [v|]; [simpl|done]. by apply IH.
Qed.

Lemma wf_store_cache st p n c :
  wf_store rangeMap st → nodes st !! p = Some n → cache st p = Some c →
  Forall2 (holds st) c (childrenOf rangeMap (value n)).
Proof.
  intros Hwf Hn. unfold cache. rewrite Hn. simpl.
  destruct (children n) as [a|] eqn:Ha; [simpl|done]. intros Hc.
  destruct (Hwf p n Hn) as [_ H]. destruct (H a Ha) as (c' & Hc' & HF).
  congruence.
Qed.

(** The state after [Children] on a node whose cache is filled. *)
Lemma Children_cached_wf st p c :
  wf_store rangeMap st → cache st p = Some c →
  let st1 := mkStore (nodes st) (arrays st ++ [c]) in
  wf_store rangeMap st1 ∧ extends st st1 ∧ cache st1 p = Some c ∧
  arrays st1 !! length (arrays st) = Some c.
Proof.
  intros Hwf Hc st1.
  assert (Hext : extends st st1).
  { intros q m Hm. split; [by exists m|].
    intros c'. unfold cache. simpl. rewrite Hm. simpl.
    destruct (children m); [simpl|done]. apply lookup_app_l_Some. }
  split_and!; [|done|by apply (cache_extends st)|by apply list_lookup_middle].
  intros q m Hm. destruct (Hwf q m Hm) as [Hk H]. split; [done|].
  intros a Ha. destruct (H a Ha) as (c' & Hc' & HF). exists c'. split.
  - by apply lookup_app_l_Some.
  - eapply Forall2_impl; [done|]. intros ??. by apply holds_extends.
Qed.

(** The state after the first [Children] on a node. *)
Lemma Children_fresh_wf st p n :
  wf_store rangeMap st → nodes st !! p = Some n → children n = None →
  let es := childrenOf rangeMap (value n) in
  let ps := seq (length (nodes st)) (length es) in
  let st1 :=
    mkStore (<[p := mkNode (nodeKind n) (key n) (value n)
                      (Some (length (arrays st)))]> (nodes st)
               ++ (mkChild <$> es))
            (arrays st ++ [ps; ps]) in
  wf_store rangeMap st1 ∧ extends st st1 ∧ cache st1 p = Some ps ∧
  arrays st1 !! S (length (arrays st)) = Some ps.
Proof.
  intros Hwf Hn Hc es ps st1.
  set (n' := mkNode (nodeKind n) (key n) (value n) (Some (length (arrays st)))).
  pose proof (lookup_lt_Some _ _ _ Hn) as Hp.
  assert (F1 : ∀ q m, nodes st !! q = Some m → q ≠ p → nodes st1 !! q = Some m).
  { intros q m Hm Hq. simpl. apply lookup_app_l_Some.
    by rewrite list_lookup_insert_ne. }
  assert (F2 : nodes st1 !! p = Some n').
  { simpl. apply lookup_app_l_Some. by apply list_lookup_insert_eq. }
  assert (F3 : ∀ i e, es !! i = Some e →
               nodes st1 !! (length (nodes st) + i) = Some (mkChild e)).
  { intros i e He. simpl. rewrite lookup_app_r by (rewrite length_insert; lia).
    rewrite length_insert, Nat.add_comm, Nat.add_sub, list_lookup_fmap.
    by rewrite He. }
  assert (F4 : ∀ q m, nodes st1 !! q = Some m →
               (q = p ∧ m = n') ∨ (q ≠ p ∧ nodes st !! q = Some m) ∨
               ∃ e, m = mkChild e).
  { intros q m. simpl. rewrite lookup_app_Some.
    intros [Hm|[_ Hm]].
    - destruct (decide (p = q)) as [->|Hne].
      + rewrite list_lookup_insert_eq in Hm by done. left.
        split; [done|]. by injection Hm as <-.
      + rewrite list_lookup_insert_ne in Hm by done. right. left. by split.
    - right. right. rewrite list_lookup_fmap in Hm.
      destruct (es !! _) as [e|]; [|done]. exists e. simpl in Hm. congruence. }
  assert (F5 : ∀ a c, arrays st !! a = Some c → arrays st1 !! a = Some c).
  { intros a c. simpl. apply lookup_app_l_Some. }
  assert (F6 : arrays st1 !! length (arrays st) = Some ps).
  { simpl. by apply list_lookup_middle. }
  assert (Hcp : cache st1 p = Some ps).
  { unfold cache. rewrite F2. simpl. exact F6. }
  assert (Hext : extends st st1).
  { intros q m Hm. destruct (decide (q = p)) as [->|Hq].
    - assert (m = n) as -> by congruence. split; [by exists n'|].
      intros c. unfold cache. rewrite Hn. simpl. by rewrite Hc.
    - split; [exists m; auto|].
      intros c. unfold cache. rewrite Hm, (F1 q m Hm Hq). simpl.
      destruct (children m); [simpl|done]. apply F5. }
  split_and!; [|done|done|].
  - intros q m Hm. destruct (F4 q m Hm) as [[-> ->]|[[Hq Hm']|[e ->]]].
    + destruct (Hwf p n Hn) as [Hk _]. split; [done|].
      intros a [= <-]. exists ps. split; [done|]. simpl.
      apply Forall2_same_length_lookup. split; [by unfold ps; rewrite length_seq|].
      intros i x e [-> Hi]%lookup_seq He.
      exists (mkChild e). split; [by apply F3|done].
    + destruct (Hwf q m Hm') as [Hk H]. split; [done|].
      intros a Ha. destruct (H a Ha) as (c & Hc' & HF). exists c.
      split; [by apply F5|].
      eapply Forall2_impl; [done|]. intros ??. by apply holds_extends.
    + split; [done|]. by intros a [=].
  - simpl. rewrite lookup_app_r by lia.
    by replace (S (length (arrays st)) - length (arrays st)) with 1 by lia.
Qed.

(** [Children] on a node of a well-formed heap: the slice it returns
    holds the cached pointers, one per child of the node's value. *)
Lemma Children_wf st p n :
  wf_store rangeMap st → nodes st !! p = Some n →
  ∃ s st1 c,
    Children rangeMap p st = Some (s, st1) ∧ arrays st1 !! s = Some c ∧
    cache st1 p = Some c ∧ wf_store rangeMap st1 ∧ extends st st1 ∧
    Forall2 (holds st1) c (childrenOf rangeMap (value n)).
Proof.
  intros Hwf Hn. destruct (children n) as [a|] eqn:Ha.
  - destruct (Hwf p n Hn) as [_ H]. destruct (H a Ha) as (c & Hc & HF).
    assert (Hcache : cache st p = Some c).
    { unfold cache. rewrite Hn. simpl. by rewrite Ha. }
    destruct (Children_cached_wf st p c Hwf Hcache) as (Hwf1 & Hext & Hc1 & Hs).
    eexists _, _, c. split; [by apply Children_cached|].
    split_and!; [done..|].
    eapply Forall2_impl; [done|]. intros ??. by apply holds_extends.
  - destruct (Hwf p n Hn) as [Hk _].
    destruct (Children_fresh_wf st p n Hwf Hn Ha) as (Hwf1 & Hext & Hc1 & Hs).
    eexists _, _,
      (seq (length (nodes st)) (length (childrenOf rangeMap (value n)))).
    split; [by apply Children_fresh|].
    split_and!; [exact Hs|exact Hc1|exact Hwf1|exact Hext|].
    destruct (Hext p n Hn) as [(n1 & Hn1 & _ & Hv) _].
    pose proof (wf_store_cache _ p n1 _ Hwf1 Hn1 Hc1) as HF.
    by rewrite Hv in HF.
Qed.
End Heap.

(** *** [Find] against the longest-match descent *)

Section Descent.
Variable rangeMap : gmap scalar generic → list (scalar * generic).
Context {fold : Folding}.
Implicit Types (st : store) (p q : ptr) (n m : yamlNode).
Implicit Types (e : string * generic) (es cs : list (string * generic)).
Implicit Types (c vs pre : list ptr) (v : generic).
Implicit Types (rec : ptr → string → store → option (option ptr * store)).
Implicit Types (recS : generic → string → option (list nat)).

Lemma scan_nil rec dottedPath curr st :
  scan rec dottedPath curr [] st = Some (None, st).
Proof. done. Qed.

Lemma scan_cons rec dottedPath curr x vs st :
  scan rec dottedPath curr (x :: vs) st =
  vn ← nodes st !! x;
  if EqualFold (key vn) curr then
    if String.eqb curr dottedPath then Some (Some x, st)
    else
      rest ← slice_from dottedPath (len curr + 1)%Z;
      '(node, st') ← rec x rest st;
      match node with
      | Some _ => Some (node, st')
      | None => scan rec dottedPath curr vs st'
      end
  else scan rec dottedPath curr vs st.
Proof. done. Qed.

Lemma search_unfold rec p dottedPath k curr st :
  search rangeMap rec p dottedPath k curr st =
  if (len curr =? 0)%Z then Some (None, st)
  else
    match k with
    | O => None
    | S k' =>
      '(s, st1) ← Children rangeMap p st;
      vs ← arrays st1 !! s;
      '(node, st2) ← scan rec dottedPath curr vs st1;
      match node with
      | Some _ => Some (node, st2)
      | None =>
        let last := LastIndex curr _separator in
        if (0 <? last)%Z then
          curr' ← slice_to curr last;
          search rangeMap rec p dottedPath k' curr' st2
        else Some (None, st2)
      end
    end.
Proof. by destruct k. Qed.

Lemma descend_unfold skip recS v path k candidate :
  descend rangeMap skip recS v path k candidate =
  if skip && (String.length candidate =? 0) then None
  else
    match k with
    | O => None
    | S k' =>
      match matchChildren recS path candidate 0 (childrenOf rangeMap v) with
      | Some pos => Some pos
      | None =>
        match truncate candidate with
        | Some shorter => descend rangeMap skip recS v path k' shorter
        | None => None
        end
      end
    end.
Proof. by destruct k. Qed.

(** A proper prefix of the path leaves room for the separator: the slice
    taken by [Find] is in range and is the suffix of the specification. *)
Lemma slice_from_suffix dottedPath curr :
  curr = str_take (String.length curr) dottedPath →
  String.eqb curr dottedPath = false →
  slice_from dottedPath (len curr + 1)%Z = Some (suffixAfter dottedPath curr) ∧
  String.length (suffixAfter dottedPath curr) < String.length dottedPath.
Proof.
  intros Hpre Hne. rewrite Hpre, str_take_eqb in Hne.
  apply bool_decide_eq_false in Hne.
  unfold suffixAfter. rewrite str_drop_length. split; [|lia].
  rewrite slice_from_in_range by (unfold len; lia).
  do 2 f_equal. unfold len. lia.
Qed.

Lemma scan_sound rec recS bound p dottedPath curr :
  sound_below rangeMap rec recS bound →
  String.length dottedPath ≤ bound →
  curr = str_take (String.length curr) dottedPath →
  ∀ vs cs pre st,
    wf_store rangeMap st → cache st p = Some (pre ++ vs) →
    Forall2 (holds st) vs cs →
    ∃ r st', scan rec dottedPath curr vs st = Some (r, st') ∧
             wf_store rangeMap st' ∧ extends st st' ∧
             answers st' p r
               (matchChildren recS dottedPath curr (length pre) cs).
Proof.
  intros Hrec Hbound Hpre.
  induction vs as [|x vs IH]; intros cs pre st Hwf Hc HF.
  { apply Forall2_nil_inv_l in HF as ->. exists None, st.
    split_and!; [done..|apply extends_refl|done]. }
  apply Forall2_cons_inv_l in HF as (e & cs' & (vn & Hvn & Hk & Hv) & HF & ->).
  assert (Hnext : ∀ st1, wf_store rangeMap st1 → extends st st1 →
    ∃ r st', scan rec dottedPath curr vs st1 = Some (r, st') ∧
             wf_store rangeMap st' ∧ extends st st' ∧
             answers st' p r
               (matchChildren recS dottedPath curr (S (length pre)) cs')).
  { intros st1 Hwf1 Hext.
    destruct (IH cs' (pre ++ [x]) st1) as (r & st' & Hs & Hwf' & Hext' & Ha).
    - done.
    - rewrite <-app_assoc. by apply (cache_extends st).
    - eapply Forall2_impl; [done|]. intros ??. by apply holds_extends.
    - exists r, st'. rewrite length_app, Nat.add_1_r in Ha.
      split_and!; [done..|by eapply extends_trans|done]. }
  rewrite scan_cons, Hvn. simpl. rewrite Hk.
  destruct (EqualFold e.1 curr); [|by apply Hnext, extends_refl].
  destruct (String.eqb curr dottedPath) eqn:Heq.
  { exists (Some x), st. split_and!; [done..|apply extends_refl|].
    exists x. split; [done|]. simpl. rewrite Hc. simpl.
    by rewrite list_lookup_middle. }
  destruct (slice_from_suffix dottedPath curr Hpre Heq) as [-> Hlen]. simpl.
  destruct (Hrec x (suffixAfter dottedPath curr) st vn Hwf Hvn)
    as (r1 & st1 & -> & Hwf1 & Hext1 & Ha1); [lia|]. simpl.
  rewrite Hv in Ha1.
  destruct (recS e.2 (suffixAfter dottedPath curr)) as [pos|]; simpl in Ha1.
  - destruct Ha1 as (q & -> & Hq). exists (Some q), st1.
    split_and!; [done..|]. exists q. split; [done|]. simpl.
    rewrite (cache_extends _ _ _ _ Hext1 Hc). simpl.
    by rewrite list_lookup_middle.
  - subst r1. by apply Hnext.
Qed.

Lemma search_sound rec recS bound p dottedPath v :
  sound_below rangeMap rec recS bound →
  String.length dottedPath ≤ bound →
  ∀ k curr st,
    wf_store rangeMap st → (∃ n, nodes st !! p = Some n ∧ value n = v) →
    curr = str_take (String.length curr) dottedPath →
    String.length curr ≤ k →
    ∃ r st', search rangeMap rec p dottedPath k curr st = Some (r, st') ∧
             wf_store rangeMap st' ∧ extends st st' ∧
             answers st' p r (descend rangeMap true recS v dottedPath k curr).
Proof.
  intros Hrec Hbound.
  induction k as [|k IH]; intros curr st Hwf (n & Hn & Hv) Hpre Hk;
    rewrite search_unfold, descend_unfold; unfold len.
  { assert (String.length curr = 0) as -> by lia. simpl.
    exists None, st. split_and!; [done..|apply extends_refl|done]. }
  destruct (Nat.eqb_spec (String.length curr) 0) as [->|Hne]; simpl.
  { exists None, st. split_and!; [done..|apply extends_refl|done]. }
  destruct (Z.eqb_spec (Z.of_nat (String.length curr)) 0) as [|_]; [lia|].
  destruct (Children_wf rangeMap st p n Hwf Hn)
    as (s & st1 & c & -> & Hs & Hc & Hwf1 & Hext1 & HF). simpl.
  rewrite Hs. simpl. rewrite Hv in HF.
  destruct (scan_sound rec recS bound p dottedPath curr Hrec Hbound Hpre
              c (childrenOf rangeMap v) [] st1 Hwf1 Hc HF)
    as (r & st2 & -> & Hwf2 & Hext2 & Ha). simpl in *.
  assert (Hext : extends st st2) by by eapply extends_trans.
  destruct (matchChildren recS dottedPath curr 0 (childrenOf rangeMap v))
    as [pos|]; simpl in Ha.
  { destruct Ha as (q & -> & Hq). exists (Some q), st2.
    split_and!; [done..|]. by exists q. }
  subst r. unfold truncate.
  pose proof (LastIndex_range curr) as Hlast. unfold len in Hlast.
  destruct (Z.ltb_spec 0 (LastIndex curr _separator)) as [Hpos|Hnpos].
  - rewrite slice_to_in_range by (unfold len; lia). simpl.
    set (l := Z.to_nat (LastIndex curr _separator)).
    assert (Hl : String.length (str_take l curr) = l)
      by (apply str_take_length; lia).
    destruct (IH (str_take l curr) st2) as (r & st' & Hs' & Hwf' & Hext' & Ha').
    + done.
    + destruct (Hext p n Hn) as [(n2 & Hn2 & _ & Hv2) _].
      exists n2. split; congruence.
    + rewrite Hl. rewrite Hpre at 1. apply str_take_take. lia.
    + lia.
    + exists r, st'. split_and!; [done..|by eapply extends_trans|done].
  - exists None, st2. by split_and!.
Qed.

Lemma Find_fuel_sound fuel :
  sound_below rangeMap (Find_fuel rangeMap fuel)
    (longestMatch_fuel rangeMap true fuel) fuel.
Proof.
  induction fuel as [|fuel IH]; intros p path st n Hwf Hn Hlen; [lia|].
  cbn [Find_fuel longestMatch_fuel].
  apply (search_sound _ _ fuel p path (value n) IH); [lia|done|by exists n| |lia].
  by rewrite str_take_all.
Qed.
End Descent.

(** *** The descent does not depend on its fuel *)

Section DescentFuel.
Variable rangeMap : gmap scalar generic → list (scalar * generic).
Context {fold : Folding}.
Implicit Types (v : generic) (path candidate : string).
Implicit Types (recS : generic → string → option (list nat)).

Lemma matchChildren_ext recS1 recS2 path candidate :
  (String.eqb candidate path = false →
   ∀ v, recS1 v (suffixAfter path candidate) =
        recS2 v (suffixAfter path candidate)) →
  ∀ cs i, matchChildren recS1 path candidate i cs =
          matchChildren recS2 path candidate i cs.
Proof.
  intros Hrec. induction cs as [|c cs IH]; intros i; [done|]. simpl.
  destruct (EqualFold c.1 candidate); [|apply IH].
  destruct (String.eqb candidate path); [done|].
  rewrite (Hrec eq_refl c.2). by rewrite IH.
Qed.

(** The descent does not depend on its bounds once they exceed the length
    of the candidate, nor on what the recursive call does on paths that
    are not shorter. *)
Lemma descend_stable skip recS1 recS2 v path :
  (∀ v' path', String.length path' < String.length path →
               recS1 v' path' = recS2 v' path') →
  ∀ k1 k2 candidate,
    candidate = str_take (String.length candidate) path →
    String.length candidate < k1 → String.length candidate < k2 →
    descend rangeMap skip recS1 v path k1 candidate =
    descend rangeMap skip recS2 v path k2 candidate.
Proof.
  intros Hrec. induction k1 as [|k1 IH]; intros k2 candidate Hpre H1 H2; [lia|].
  destruct k2 as [|k2]; [lia|]. rewrite !descend_unfold.
  destruct (skip && _); [done|].
  rewrite (matchChildren_ext recS1 recS2 path candidate).
  2: { intros Hne v'. apply Hrec.
       by apply (slice_from_suffix path candidate Hpre Hne). }
  destruct (matchChildren _ _ _ _ _); [done|].
  unfold truncate. pose proof (LastIndex_range candidate) as Hl.
  unfold len in Hl. destruct (0 <? _)%Z eqn:Hpos; [|done].
  apply Z.ltb_lt in Hpos.
  set (l := Z.to_nat (LastIndex candidate _separator)).
  assert (Hlen : String.length (str_take l candidate) = l)
    by (apply str_take_length; lia).
  apply IH; [|lia..].
  rewrite Hlen. rewrite Hpre at 1. apply str_take_take. lia.
Qed.

Lemma longestMatch_fuel_stable skip fuel1 : ∀ fuel2 v path,
  String.length path < fuel1 → String.length path < fuel2 →
  longestMatch_fuel rangeMap skip fuel1 v path =
  longestMatch_fuel rangeMap skip fuel2 v path.
Proof.
  induction fuel1 as [|fuel1 IH]; intros fuel2 v path H1 H2; [lia|].
  destruct fuel2 as [|fuel2]; [lia|]. cbn [longestMatch_fuel].
  apply descend_stable; [|by rewrite str_take_all|lia..].
  intros v' path' Hlt. apply IH; lia.
Qed.

(** The equation of the descent: the recursive calls are the descent
    itself. *)
Lemma longestMatch_eq v path :
  longestMatch rangeMap v path =
  descend rangeMap true (longestMatch rangeMap) v path
          (S (String.length path)) path.
Proof.
  unfold longestMatch at 1. cbn [longestMatch_fuel].
  apply descend_stable; [|by rewrite str_take_all|lia..].
  intros v' path' Hlt. unfold longestMatch.
  apply longestMatch_fuel_stable; lia.
Qed.
End DescentFuel.

(** *** Paths and their separators *)

Section Separators.
Implicit Types (a b s rest : string).

Lemma app_cons_assoc a x b s :
  (a +:+ String x b) +:+ s = a +:+ String x (b +:+ s).
Proof.
  induction a as [|y a IH]; [done|].
  change (String y a +:+ ?t) with (String y (a +:+ t)).
  change (String y ?u +:+ s) with (String y (u +:+ s)). by rewrite IH.
Qed.

Lemma LastIndex_app_separator a rest :
  (len a ≤ LastIndex (a +:+ String "." rest) _separator)%Z.
Proof.
  induction a as [|x a IH].
  - change (EmptyString +:+ ?s) with s. rewrite LastIndex_cons.
    pose proof (LastIndex_range rest).
    destruct (_ =? _)%Z; [|unfold len; simpl; lia].
    by rewrite bool_decide_eq_true_2.
  - change (String x a +:+ ?s) with (String x (a +:+ s)).
    rewrite LastIndex_cons, len_cons. pose proof (len_nonneg a).
    destruct (Z.eqb_spec (LastIndex (a +:+ String "." rest) _separator) (-1));
      lia.
Qed.

Lemma LastIndex_app_last a b :
  LastIndex b _separator = (-1)%Z →
  LastIndex (a +:+ String "." b) _separator = len a.
Proof.
  intros Hb. induction a as [|x a IH].
  - change (EmptyString +:+ ?s) with s. rewrite LastIndex_cons, Hb.
    by rewrite Z.eqb_refl, bool_decide_eq_true_2.
  - change (String x a +:+ ?s) with (String x (a +:+ s)).
    rewrite LastIndex_cons, IH, len_cons. pose proof (len_nonneg a).
    destruct (Z.eqb_spec (len a) (-1)); lia.
Qed.

(** A string that holds a separator, cut at its last one. *)
Lemma LastIndex_split s :
  LastIndex s _separator ≠ (-1)%Z →
  ∃ a b, s = a +:+ String "." b ∧ LastIndex b _separator = (-1)%Z.
Proof.
  induction s as [|x s IH]; [done|]. rewrite LastIndex_cons.
  destruct (Z.eqb_spec (LastIndex s _separator) (-1)) as [Hs|Hs].
  - case_bool_decide as Hx; [|done]. intros _. subst x.
    by exists EmptyString, s.
  - intros _. destruct (IH Hs) as (a & b & -> & Hb).
    by exists (String x a), b.
Qed.

Lemma str_take_app_ge a s j :
  String.length a ≤ j →
  str_take j (a +:+ s) = a +:+ str_take (j - String.length a) s.
Proof.
  revert j. induction a as [|x a IH]; intros j Hj.
  - change (EmptyString +:+ ?s) with s. by rewrite Nat.sub_0_r.
  - change (String x a +:+ ?s) with (String x (a +:+ s)).
    destruct j as [|j]; simpl in *; [lia|]. rewrite IH by lia. done.
Qed.

Lemma len_app_cons_nat a x rest :
  String.length (a +:+ String x rest) = S (String.length a + String.length rest).
Proof.
  pose proof (len_app a (String x rest)) as H. rewrite len_cons in H.
  unfold len in H. lia.
Qed.

Lemma eqb_app_cons a x rest : String.eqb a (a +:+ String x rest) = false.
Proof.
  apply String.eqb_neq. intros Heq. apply (f_equal String.length) in Heq.
  rewrite len_app_cons_nat in Heq. lia.
Qed.

Lemma suffixAfter_app a x rest : suffixAfter (a +:+ String x rest) a = rest.
Proof.
  unfold suffixAfter. induction a as [|y a IH]; [done|].
  change (String y a +:+ ?s) with (String y (a +:+ s)). exact IH.
Qed.

Lemma truncate_none s : LastIndex s _separator = (-1)%Z → truncate s = None.
Proof. intros H. unfold truncate. by rewrite H. Qed.

(** The candidate that follows [a.b], for [b] without separator, is [a],
    unless [a] is empty. *)
Lemma truncate_app a b :
  LastIndex b _separator = (-1)%Z →
  truncate (a +:+ String "." b) =
  if String.length a =? 0 then None else Some a.
Proof.
  intros Hb. unfold truncate. rewrite (LastIndex_app_last a b Hb).
  unfold len. rewrite Nat2Z.id, str_take_app.
  destruct (String.length a); simpl; [done|].
  by destruct (Z.ltb_spec 0 (Z.pos (Pos.of_succ_nat n))); [|lia].
Qed.
End Separators.

(** *** What follows from the laws of the comparison *)

Section FoldFacts.
Context {fold : Folding} {laws : FoldingLaws}.
Implicit Types (s t u a b : string).

(** A label matches both of two candidates that match each other, or
    neither. *)
Lemma EqualFold_candidates s t u :
  EqualFold t u = true → EqualFold s t = EqualFold s u.
Proof.
  intros H. destruct (EqualFold s t) eqn:Ht, (EqualFold s u) eqn:Hu; try done.
  - by rewrite (fold_trans s t u) in Hu.
  - rewrite (fold_trans s u t) in Ht; [done..|]. by apply fold_sym.
Qed.

Lemma EqualFold_empty s t :
  EqualFold s t = true → (String.length s =? 0) = (String.length t =? 0).
Proof.
  intros H. destruct s as [|x s], t as [|y t]; try done.
  - by apply fold_empty in H.
  - by apply fold_sym, fold_empty in H.
Qed.

Lemma EqualFold_no_separator s t :
  EqualFold s t = true →
  LastIndex s _separator = (-1)%Z → LastIndex t _separator = (-1)%Z.
Proof.
  intros H Hs.
  destruct (decide (LastIndex t _separator = (-1)%Z)) as [|Ht]; [done|].
  destruct (LastIndex_split t Ht) as (a & b & -> & _).
  apply fold_sym, fold_separator in H as (a' & b' & -> & _ & _).
  pose proof (LastIndex_app_separator a' b'). pose proof (len_nonneg a'). lia.
Qed.

(** The candidates that follow two matching candidates match, and so do
    the segments cut off. *)
Lemma truncate_fold c1 c2 :
  EqualFold c1 c2 = true →
  match truncate c1, truncate c2 with
  | Some a1, Some a2 =>
    ∃ b1 b2, c1 = a1 +:+ String "." b1 ∧ c2 = a2 +:+ String "." b2 ∧
             EqualFold a1 a2 = true ∧ EqualFold b1 b2 = true
  | None, None => True
  | _, _ => False
  end.
Proof.
  intros H.
  destruct (decide (LastIndex c1 _separator = (-1)%Z)) as [H1|H1].
  { by rewrite (truncate_none c1 H1),
      (truncate_none c2 (EqualFold_no_separator c1 c2 H H1)). }
  destruct (LastIndex_split c1 H1) as (a1 & b1 & -> & Hb1).
  apply fold_separator in H as (a2 & b2 & -> & Ha & Hb).
  rewrite (truncate_app a1 b1 Hb1),
    (truncate_app a2 b2 (EqualFold_no_separator b1 b2 Hb Hb1)).
  rewrite <-(EqualFold_empty a1 a2 Ha).
  destruct (String.length a1 =? 0); [done|]. by exists b1, b2.
Qed.
End FoldFacts.

(** *** Paths that match *)

Section CaseBlind.
Variable rangeMap : gmap scalar generic → list (scalar * generic).
Context {fold : Folding} {laws : FoldingLaws}.
Implicit Types (v : generic) (path candidate : string).
Implicit Types (recS : generic → string → option (list nat)).

Lemma matchChildren_fold recS path1 path2 c1 c2 :
  aligned path1 path2 c1 c2 →
  (∀ v s1 s2, String.length s1 < String.length path1 →
              EqualFold s1 s2 = true → recS v s1 = recS v s2) →
  ∀ cs i, matchChildren recS path1 c1 i cs = matchChildren recS path2 c2 i cs.
Proof.
  intros [Hc Hal] Hrec. induction cs as [|c cs IH]; intros i; [done|]. simpl.
  rewrite (EqualFold_candidates c.1 c1 c2 Hc).
  destruct (EqualFold c.1 c2); [|apply IH].
  destruct Hal as [[-> ->]|(s1 & s2 & -> & -> & Hs)].
  - by rewrite !String.eqb_refl.
  - rewrite !eqb_app_cons, !suffixAfter_app.
    rewrite (Hrec c.2 s1 s2) by (rewrite ?len_app_cons_nat; lia || done).
    destruct (recS c.2 s2); [done|apply IH].
Qed.

Lemma descend_fold skip recS v path1 path2 :
  (∀ v s1 s2, String.length s1 < String.length path1 →
              EqualFold s1 s2 = true → recS v s1 = recS v s2) →
  ∀ k1 k2 c1 c2,
    aligned path1 path2 c1 c2 →
    String.length c1 < k1 → String.length c2 < k2 →
    descend rangeMap skip recS v path1 k1 c1 =
    descend rangeMap skip recS v path2 k2 c2.
Proof.
  intros Hrec. induction k1 as [|k1 IH]; intros k2 c1 c2 Hal H1 H2; [lia|].
  destruct k2 as [|k2]; [lia|]. rewrite !descend_unfold.
  rewrite (EqualFold_empty c1 c2 (proj1 Hal)).
  destruct (skip && _); [done|].
  rewrite (matchChildren_fold recS path1 path2 c1 c2 Hal Hrec).
  destruct (matchChildren _ _ _ _ _); [done|].
  pose proof (truncate_fold c1 c2 (proj1 Hal)) as Ht.
  destruct (truncate c1) as [a1|], (truncate c2) as [a2|]; try done.
  destruct Ht as (b1 & b2 & Hc1 & Hc2 & Ha & Hb).
  apply IH.
  - split; [done|]. right.
    destruct Hal as [_ [[<- <-]|(s1 & s2 & -> & -> & Hs)]].
    + by exists b1, b2.
    + exists (b1 +:+ String "." s1), (b2 +:+ String "." s2).
      rewrite Hc1, Hc2, !app_cons_assoc. split_and!; [done..|].
      apply fold_separator. by exists b2, s2.
  - rewrite Hc1, len_app_cons_nat in H1. lia.
  - rewrite Hc2, len_app_cons_nat in H2. lia.
Qed.

(** The descent does not tell apart two paths that match. *)
Lemma longestMatch_case_blind n : ∀ v path1 path2,
  String.length path1 < n → EqualFold path1 path2 = true →
  longestMatch rangeMap v path1 = longestMatch rangeMap v path2.
Proof.
  induction n as [|n IH]; intros v path1 path2 Hn Hp; [lia|].
  rewrite !longestMatch_eq. apply descend_fold; [| |lia..].
  - intros v' s1 s2 Hlt Hs. apply IH; [lia|done].
  - split; [done|]. by left.
Qed.
End CaseBlind.

(** *** Positions in the heap *)

Section Positions.
Variable rangeMap : gmap scalar generic → list (scalar * generic).
Implicit Types (st : store) (p q : ptr) (n m : yamlNode).

(** The value of the node at a position is the value at that position. *)
Lemma nodeAt_valueAt st pos : ∀ p n q,
  wf_store rangeMap st → nodes st !! p = Some n →
  nodeAt st p pos = Some q →
  ∃ nq, nodes st !! q = Some nq ∧
        valueAt rangeMap (value n) pos = Some (value nq).
Proof.
  induction pos as [|i pos IH]; intros p n q Hwf Hn; simpl.
  { intros [= <-]. by exists n. }
  destruct (cache st p) as [c|] eqn:Hc; [simpl|done].
  destruct (c !! i) as [x|] eqn:Hx; [simpl|done]. intros Hq.
  pose proof (wf_store_cache rangeMap st p n c Hwf Hn Hc) as HF.
  destruct (Forall2_lookup_l _ _ _ _ _ HF Hx) as (e & -> & nx & Hnx & _ & Hv).
  simpl. rewrite <-Hv. by apply (IH x nx q).
Qed.

(** The root node of a provider, placed in memory, is a well-formed
    heap. *)
Lemma wf_store_load y :
  nodeKind (root y) = getNodeType (value (root y)) →
  children (root y) = None →
  wf_store rangeMap (load y).
Proof.
  intros Hk Hc [|p] n; [|done]. intros [= <-]. split; [done|].
  intros a. by rewrite Hc.
Qed.

(** So is the root of every provider that [newYAMLProviderCore] builds. *)
Lemma newYAMLProviderCore_wf Root files y :
  newYAMLProviderCore Root files = Ok y → wf_store rangeMap (load y).
Proof.
  unfold newYAMLProviderCore.
  destruct (mergeFiles Absent files) as [v|e]; [|done].
  intros [= <-]. by apply wf_store_load.
Qed.
End Positions.

(** *** Main results on the lookup tree *)

Section Claims.
Variable rangeMap : gmap scalar generic → list (scalar * generic).
Context {fold : Folding} {laws : FoldingLaws}.
Implicit Types (st : store) (p q : ptr) (n : yamlNode).

(** [Find] with the fuel it is given refines the descent. *)
Lemma Find_refines st p n path :
  wf_store rangeMap st → nodes st !! p = Some n →
  ∃ r st',
    Find rangeMap p path st = Some (r, st') ∧
    wf_store rangeMap st' ∧ extends st st' ∧
    answers st' p r (longestMatch rangeMap (value n) path).
Proof.
  intros Hwf Hn.
  apply (Find_fuel_sound rangeMap (S (String.length path)) p path st n);
    [done..|lia].
Qed.

(** C5 (amended): on a well-formed heap [Find] returns, and its answer is
    the longest-match descent of the specification, where an empty path
    finds nothing: the node it returns is the one at the position the
    descent computes from the value of the start node, and not-found
    when the descent finds none. *)
Theorem Find_longest_match st p n path :
  wf_store rangeMap st → nodes st !! p = Some n →
  ∃ r st',
    Find rangeMap p path st = Some (r, st') ∧
    wf_store rangeMap st' ∧ extends st st' ∧
    answers st' p r (longestMatch rangeMap (value n) path).
Proof. apply Find_refines. Qed.

(** The node [Find] returns carries the value found at the position of
    the descent. *)
Lemma Find_value st p n path q st' :
  wf_store rangeMap st → nodes st !! p = Some n →
  Find rangeMap p path st = Some (Some q, st') →
  ∃ pos nq, longestMatch rangeMap (value n) path = Some pos ∧
            nodes st' !! q = Some nq ∧
            valueAt rangeMap (value n) pos = Some (value nq).
Proof.
  intros Hwf Hn HF.
  destruct (Find_refines st p n path Hwf Hn)
    as (r & st1 & HF' & Hwf' & Hext & Ha).
  rewrite HF in HF'. injection HF' as <- <-.
  destruct (longestMatch rangeMap (value n) path) as [pos|]; [|done].
  destruct Ha as (q' & [= <-] & Hq).
  destruct (Hext p n Hn) as [(n' & Hn' & _ & Hv) _].
  destruct (nodeAt_valueAt rangeMap st' pos p n' q Hwf' Hn' Hq)
    as (nq & Hnq & Hval).
  exists pos, nq. rewrite Hv in Hval. done.
Qed.

(** C7: two paths that differ in letter case only, that is, paths that
    [strings.EqualFold] matches, get the same node from [Find]: once
    [Find] has answered the first path, it gives the same answer to the
    second, at once and at any later state of the tree.  (The first
    answer fixes the order of the children of every node it went
    through; a tree not yet expanded may range over a map in another
    order at each run.) *)
Theorem Find_case_insensitive st p n path1 path2 :
  wf_store rangeMap st → nodes st !! p = Some n →
  EqualFold path1 path2 = true →
  ∃ r st1,
    Find rangeMap p path1 st = Some (r, st1) ∧
    ∀ st', wf_store rangeMap st' → extends st1 st' →
      ∃ st2, Find rangeMap p path2 st' = Some (r, st2).
Proof.
  intros Hwf Hn Hp.
  destruct (Find_refines st p n path1 Hwf Hn)
    as (r & st1 & HF1 & Hwf1 & Hext1 & Ha1).
  exists r, st1. split; [done|]. intros st' Hwf' Hext'.
  destruct (Hext1 p n Hn) as [(n1 & Hn1 & _ & Hv1) _].
  destruct (Hext' p n1 Hn1) as [(n' & Hn' & _ & Hv') _].
  destruct (Find_refines st' p n' path2 Hwf' Hn')
    as (r2 & st2 & HF2 & _ & Hext2 & Ha2).
  exists st2. rewrite HF2. do 2 f_equal. rewrite Hv', Hv1 in Ha2.
  rewrite <-(longestMatch_case_blind rangeMap _ (value n) path1 path2
               (Nat.lt_succ_diag_r _) Hp) in Ha2.
  destruct (longestMatch rangeMap (value n) path1) as [pos|]; simpl in *.
  - destruct Ha1 as (q & -> & Hq). destruct Ha2 as (q2 & -> & Hq2).
    apply (nodeAt_extends st1 st' pos p q Hext') in Hq.
    apply (nodeAt_extends st' st2 pos p q Hext2) in Hq. congruence.
  - congruence.
Qed.

Hypothesis rangeMap_perm : ∀ m, rangeMap m ≡ₚ map_to_list m.

(** C8: the first [Children] on a node allocates one fresh node per child
    of the node's own value, in order: for a mapping one per entry,
    labelled by the rendered key; for a sequence one per element,
    labelled by its decimal index; none otherwise.  Each child has the
    label and the value of its entry, the kind of that value and no
    children yet; the node keeps its kind, label and value, and no other
    node and no array there was is touched.  The pointers are cached in
    a new array, and the slice returned is another new array holding a
    copy: overwriting it leaves the cache as it is.  Every later call
    allocates no node and returns again a fresh slice with the cached
    pointers, whatever the caller wrote into the slices returned
    before. *)
Theorem Children_memoized st p n :
  nodes st !! p = Some n → nodeKind n = getNodeType (value n) →
  children n = None →
  ∃ s1 st1 a c es,
    Children rangeMap p st = Some (s1, st1) ∧
    match value n with
    | Mapping m => es ≡ₚ (λ kv, (Sprintf_v kv.1, kv.2)) <$> map_to_list m
    | Sequence l =>
      length es = length l ∧
      ∀ i x, l !! i = Some x → es !! i = Some (Itoa (Z.of_nat i), x)
    | _ => es = []
    end ∧
    c = seq (length (nodes st)) (length es) ∧
    length (nodes st1) = length (nodes st) + length es ∧
    (∀ i e, es !! i = Some e →
       nodes st1 !! (length (nodes st) + i) =
       Some (mkNode (getNodeType e.2) e.1 e.2 None)) ∧
    nodes st1 !! p = Some (mkNode (nodeKind n) (key n) (value n) (Some a)) ∧
    (∀ q, q ≠ p → q < length (nodes st) → nodes st1 !! q = nodes st !! q) ∧
    (∀ b x, arrays st !! b = Some x → arrays st1 !! b = Some x) ∧
    arrays st !! a = None ∧ arrays st1 !! a = Some c ∧
    cache st1 p = Some c ∧
    a ≠ s1 ∧ arrays st !! s1 = None ∧ arrays st1 !! s1 = Some c ∧
    (∀ elems, cache (overwrite s1 elems st1) p = Some c) ∧
    ∀ st' c', cache st' p = Some c' →
      ∃ s2 st2,
        Children rangeMap p st' = Some (s2, st2) ∧
        arrays st' !! s2 = None ∧ arrays st2 !! s2 = Some c' ∧
        nodes st2 = nodes st' ∧ cache st2 p = Some c' ∧
        (∀ b x, arrays st' !! b = Some x → arrays st2 !! b = Some x) ∧
        ∀ elems, cache (overwrite s2 elems st2) p = Some c'.
Proof.
  intros Hn Hk Hc.
  set (es := childrenOf rangeMap (value n)).
  eexists (S (length (arrays st))), _, (length (arrays st)),
    (seq (length (nodes st)) (length es)), es.
  split; [by apply Children_fresh|].
  pose proof (lookup_lt_Some _ _ _ Hn) as Hp.
  assert (Hcache : ∀ st' c', cache st' p = Some c' →
            ∃ n' a, nodes st' !! p = Some n' ∧ children n' = Some a ∧
                    arrays st' !! a = Some c').
  { intros st' c'. unfold cache.
    destruct (nodes st' !! p) as [n'|]; [simpl|done].
    destruct (children n') as [a|] eqn:Ha; [simpl|done].
    intros ?. by exists n', a. }
  split_and!.
  - subst es. destruct (value n) as [| |l|m]; simpl; [done..| |].
    + unfold arrayEntries. split; [by rewrite length_imap|].
      intros i x Hx. by rewrite list_lookup_imap, Hx.
    + unfold objectEntries. by rewrite rangeMap_perm.
  - done.
  - simpl. by rewrite length_app, length_insert, length_fmap.
  - intros i e He. unfold es in He. simpl.
    rewrite lookup_app_r by (rewrite length_insert; lia).
    rewrite length_insert, Nat.add_comm, Nat.add_sub, list_lookup_fmap.
    by rewrite He.
  - simpl. rewrite lookup_app_l by by rewrite length_insert.
    by rewrite list_lookup_insert_eq.
  - intros q Hq Hlt. simpl.
    rewrite lookup_app_l by by rewrite length_insert.
    by rewrite list_lookup_insert_ne.
  - intros b x Hb. simpl. by apply lookup_app_l_Some.
  - by apply lookup_ge_None.
  - simpl. by apply list_lookup_middle.
  - unfold cache. simpl. rewrite lookup_app_l by by rewrite length_insert.
    rewrite list_lookup_insert_eq by done. simpl.
    by apply list_lookup_middle.
  - lia.
  - apply lookup_ge_None. lia.
  - simpl. rewrite lookup_app_r by lia.
    by replace (S (length (arrays st)) - length (arrays st)) with 1 by lia.
  - intros elems. unfold cache, overwrite. simpl.
    rewrite lookup_app_l by by rewrite length_insert.
    rewrite list_lookup_insert_eq by done. simpl.
    rewrite list_lookup_insert_ne by lia. by apply list_lookup_middle.
  - intros st' c' Hc'. eexists _, _.
    split; [by apply Children_cached|]. simpl.
    destruct (Hcache st' c' Hc') as (n' & a & Hn' & Ha & Hca).
    pose proof (lookup_lt_Some _ _ _ Hca) as Hlt.
    split_and!.
    + by apply lookup_ge_None.
    + by apply list_lookup_middle.
    + done.
    + unfold cache. simpl. rewrite Hn'. simpl. rewrite Ha. simpl.
      by apply lookup_app_l_Some.
    + intros b x Hb. by apply lookup_app_l_Some.
    + intros elems. unfold cache, overwrite. simpl. rewrite Hn'. simpl.
      rewrite Ha. simpl. rewrite list_lookup_insert_ne by lia.
      by apply lookup_app_l_Some.
Qed.
End Claims.

Lemma wf_store_Ab : wf_store map_to_list store_Ab.
Proof. by apply wf_store_load. Qed.

Lemma Find_longest_match_witness :
  wf_store map_to_list store_Ab ∧
  nodes store_Ab !! 0 = Some (mkNode objectNode EmptyString tree_Ab None) ∧
  ∃ st', Find map_to_list 0 "A.b" store_Ab = Some (Some 2, st') ∧
         longestMatch map_to_list tree_Ab "A.b" = Some [0; 0].
Proof.
  split; [exact wf_store_Ab|]. split; [reflexivity|].
  destruct (Find_longest_match map_to_list store_Ab 0
              (mkNode objectNode EmptyString tree_Ab None) "A.b"
              wf_store_Ab eq_refl) as (r & st' & HF & _ & _ & _).
  exists st'. split; [|reflexivity].
  rewrite HF. vm_compute in HF. by injection HF as <- <-.
Defined.

(** C5, as stated, fails: for the empty path the descent of the claim
    returns the child whose label is empty, and [Find] returns not-found
    without looking at the children.  The empty path is also what [Find]
    calls itself on after a trailing separator: in the tree of
    [{a: {"": 1}}] the path [a.] finds nothing, and the descent of the
    claim finds the leaf. *)
Lemma Find_empty_path_finds_nothing :
  let v := Mapping {[SString EmptyString := Scalar (SInt 1)]} in
  let st := load (mkProvider (mkNode objectNode EmptyString v None)) in
  let w := Mapping {[SString "a" := v]} in
  let st_w := load (mkProvider (mkNode objectNode EmptyString w None)) in
  (Find map_to_list 0 EmptyString st = Some (None, st) ∧
   longestMatch_claimed map_to_list v EmptyString = Some [0]) ∧
  (fst <$> Find map_to_list 0 "a." st_w = Some None ∧
   longestMatch_claimed map_to_list w "a." = Some [0; 0]).
Proof. split; split; reflexivity. Qed.

(** The longest-match law of the specification: in the tree of
    [{a.b: {c: 1}, a: {b.c: 2}}] the path [a.b.c] is resolved through the
    longest key [a.b], to the leaf 1. *)
Example Find_longest_key_first :
  let v := Mapping (<[SString "a.b" :=
                        Mapping {[SString "c" := Scalar (SInt 1)]}]>
                      {[SString "a" :=
                        Mapping {[SString "b.c" := Scalar (SInt 2)]}]}) in
  let st := load (mkProvider (mkNode objectNode EmptyString v None)) in
  ∃ q st' nq,
    Find map_to_list 0 "a.b.c" st = Some (Some q, st') ∧
    nodes st' !! q = Some nq ∧ key nq = "c" ∧ value nq = Scalar (SInt 1).
Proof. by eexists _, _, _; split_and!; vm_compute. Qed.

(** A path through a sequence: the element index is the label. *)
Example Find_sequence_index :
  let v := Mapping {[SString "l" :=
             Sequence [Scalar (SInt 5);
                       Mapping {[SString "x" := Scalar (SInt 6)]}]]} in
  let st := load (mkProvider (mkNode objectNode EmptyString v None)) in
  ∃ q st' nq,
    Find map_to_list 0 "l.1.x" st = Some (Some q, st') ∧
    nodes st' !! q = Some nq ∧ key nq = "x" ∧ value nq = Scalar (SInt 6).
Proof. by eexists _, _, _; split_and!; vm_compute. Qed.

Lemma Find_case_insensitive_witness :
  wf_store map_to_list store_Ab ∧
  nodes store_Ab !! 0 = Some (mkNode objectNode EmptyString tree_Ab None) ∧
  EqualFold "A.B" "a.b" = true ∧
  ∃ st1 st2,
    Find map_to_list 0 "A.B" store_Ab = Some (Some 2, st1) ∧
    Find map_to_list 0 "a.b" st1 = Some (Some 2, st2).
Proof.
  split; [exact wf_store_Ab|]. split; [reflexivity|]. split; [reflexivity|].
  destruct (Find_case_insensitive map_to_list store_Ab 0
              (mkNode objectNode EmptyString tree_Ab None) "A.B" "a.b"
              wf_store_Ab eq_refl eq_refl) as (r & st1 & H1 & H2).
  destruct (Find_refines map_to_list store_Ab 0
              (mkNode objectNode EmptyString tree_Ab None) "A.B"
              wf_store_Ab eq_refl) as (r' & st1' & HF & Hwf1 & _ & _).
  rewrite H1 in HF. injection HF as <- <-.
  destruct (H2 st1 Hwf1 (extends_refl st1)) as (st2 & H3).
  exists st1, st2.
  assert (r = Some 2) as ->; [|done].
  vm_compute in H1. by injection H1 as <- _.
Defined.

Lemma Children_memoized_witness :
  (∀ m : gmap scalar generic, map_to_list m ≡ₚ map_to_list m) ∧
  nodes store_Ab !! 0 = Some (mkNode objectNode EmptyString tree_Ab None) ∧
  ∃ s1 st1,
    Children map_to_list 0 store_Ab = Some (s1, st1) ∧
    arrays st1 !! s1 = Some [1] ∧ cache st1 0 = Some [1] ∧
    nodes st1 !! 1 =
      Some (mkNode objectNode "A"
              (Mapping {[SString "b" := Scalar (SInt 1)]}) None) ∧
    cache (overwrite s1 [7] st1) 0 = Some [1] ∧
    ∃ s2 st2,
      Children map_to_list 0 (overwrite s1 [7] st1) = Some (s2, st2) ∧
      s2 ≠ s1 ∧ arrays st2 !! s2 = Some [1].
Proof.
  split; [intros m; reflexivity|]. split; [reflexivity|].
  destruct (Children_memoized map_to_list (λ m, reflexivity _) store_Ab 0
              (mkNode objectNode EmptyString tree_Ab None)
              eq_refl eq_refl eq_refl)
    as (s1 & st1 & a & c & es & HC & Hes & Hc & _ & Hnodes & _ & _ & _ & _
        & _ & Hcache & _ & _ & Hs1 & Hover & Hlater).
  simpl in Hes.
  assert (es = [("A", Mapping {[SString "b" := Scalar (SInt 1)]})]) as ->.
  { apply Permutation_singleton_r. by rewrite Hes. }
  simpl in Hc. subst c.
  destruct (Hlater (overwrite s1 [7] st1) [1] (Hover [7]))
    as (s2 & st2 & HC2 & Hfresh & Hs2 & _).
  exists s1, st1. split_and!; [done..|exact (Hnodes 0 _ eq_refl)|done|].
  exists s2, st2. split_and!; [done| |done].
  intros ->. unfold overwrite in Hfresh. simpl in Hfresh.
  apply lookup_ge_None in Hfresh. rewrite length_insert in Hfresh.
  apply lookup_lt_Some in Hs1. lia.
Defined.

(** * Further properties of the code *)

(** ** The merge *)

Section MergeMore.
Implicit Types (d s m : gmap scalar generic) (k : scalar).
Implicit Types (v a b dst src : generic).

Lemma gsize_lookup m k v : m !! k = Some v → gsize v < gsize (Mapping m).
Proof.
  simpl. revert k v.
  apply (map_fold_weak_ind (λ r m, ∀ k v, m !! k = Some v → gsize v < S r)).
  - intros k v. by rewrite lookup_empty.
  - intros i x m' r Hi IH k v. destruct (decide (i = k)) as [->|Hne].
    + rewrite lookup_insert_eq. intros [= ->]. lia.
    + rewrite lookup_insert_ne by done. intros H%IH. lia.
Qed.

Lemma gsize_elem l v : v ∈ l → gsize v < gsize (Sequence l).
Proof.
  simpl. induction 1 as [|x y l _ IH]; simpl; lia.
Qed.

(** Induction on a value through its nested maps and lists. *)
Lemma generic_ind' (P : generic → Prop) :
  P Absent → (∀ x, P (Scalar x)) →
  (∀ l, Forall P l → P (Sequence l)) →
  (∀ m, map_Forall (λ _, P) m → P (Mapping m)) →
  ∀ v, P v.
Proof.
  intros HA HS HL HM v.
  cut (∀ n v, gsize v < n → P v); [intros H; apply (H (S (gsize v))); lia|].
  clear v. induction n as [|n IH]; intros v Hv; [lia|].
  destruct v as [|x|l|m]; [auto..| |].
  - apply HL, Forall_forall. intros v Hin. apply IH.
    pose proof (gsize_elem l v Hin). lia.
  - apply HM. intros k v Hk. apply IH.
    pose proof (gsize_lookup m k v Hk). lia.
Qed.

(** X1: Merging a value with itself gives it back, for every value that
    the model holds: nil, a scalar, a sequence, or a map whose keys are
    strings, integers and booleans, nested to any depth.  (A map with the
    key NaN is no such value: the code never finds that key again and adds
    an entry.) *)
Theorem mergeMaps_idem v : mergeMaps v v = Ok v.
Proof.
  induction v as [|x|l _|m IH] using generic_ind'; [done..|].
  rewrite mergeMaps_mappings. pose proof (mergeEntry_fold m m) as H.
  destruct (map_fold _ _ _) as [m'|e].
  - do 2 f_equal. apply map_eq. intros k. specialize (H k).
    unfold merged_at in H. destruct (m !! k) as [b|] eqn:Hk; [|done].
    simpl in H. destruct H as (r & Hr & ->).
    rewrite (IH k b Hk) in Hr. congruence.
  - destruct H as (k & a & b & Ha & Hb & He).
    assert (a = b) as -> by congruence. by rewrite (IH k b Hb) in He.
Qed.

(** X2: The only error of a merge is the conflict of a mapping in the source
    with a value of the destination that is neither nil nor a mapping. *)
Theorem mergeMaps_error src : ∀ dst e,
  mergeMaps dst src = Err e →
  ∃ a s, e = MergeConflict a (Mapping s) ∧
         is_mapping a = false ∧ is_absent a = false.
Proof.
  induction src as [|x|l _|s IH] using generic_ind'; intros dst e.
  - by destruct dst.
  - by destruct dst.
  - by destruct dst.
  - destruct dst as [|x|l|d]; [done| | |].
    + intros [= <-]. by eexists _, _.
    + intros [= <-]. by eexists _, _.
    + rewrite mergeMaps_mappings. pose proof (mergeEntry_fold d s) as H.
      destruct (map_fold _ _ _) as [m'|e']; [done|]. intros [= ->].
      destruct H as (k & a & b & _ & Hb & He). by apply (IH k b Hb a).
Qed.

(** X3: A source whose values are all scalars or sequences overrides the
    destination key by key and never fails. *)
Theorem mergeMaps_flat d s :
  map_Forall (λ _ v, is_mapping v = false ∧ is_absent v = false) s →
  mergeMaps (Mapping d) (Mapping s) = Ok (Mapping (s ∪ d)).
Proof.
  intros Hflat. rewrite mergeMaps_mappings.
  pose proof (mergeEntry_fold d s) as H.
  destruct (map_fold _ _ _) as [m|e].
  - do 2 f_equal. apply map_eq. intros k. specialize (H k).
    unfold merged_at in H. rewrite lookup_union.
    destruct (s !! k) as [b|] eqn:Hk.
    + destruct (Hflat k b Hk) as [Hm Ha].
      destruct H as (r & Hr & ->).
      rewrite mergeMaps_overwrite in Hr by done. injection Hr as <-.
      by destruct (d !! k).
    + rewrite H. by destruct (d !! k).
  - destruct H as (k & a & b & _ & Hb & He).
    destruct (Hflat k b Hb) as [Hm Ha].
    by rewrite mergeMaps_overwrite in He.
Qed.

(** X4: Mappings without a common key merge into their union. *)
Theorem mergeMaps_disjoint d s :
  d ##ₘ s → mergeMaps (Mapping d) (Mapping s) = Ok (Mapping (d ∪ s)).
Proof.
  intros Hdisj. rewrite mergeMaps_mappings.
  pose proof (mergeEntry_fold d s) as H.
  destruct (map_fold _ _ _) as [m|e].
  - do 2 f_equal. apply map_eq. intros k. specialize (H k).
    unfold merged_at in H. rewrite lookup_union.
    destruct (s !! k) as [b|] eqn:Hk.
    + rewrite (map_disjoint_Some_r d s k b Hdisj Hk) in H |- *. simpl in H.
      destruct H as (r & Hr & ->). rewrite mergeMaps_absent_l in Hr.
      injection Hr as <-. done.
    + rewrite H. by destruct (d !! k).
  - destruct H as (k & a & b & Ha & Hb & _).
    by rewrite (map_disjoint_Some_r d s k b Hdisj Hb) in Ha.
Qed.
End MergeMore.

(** ** The constructor over readers *)

Section Layers.
Implicit Types (root r x : generic) (fs gs rest : list reader) (v : reader).

Lemma mergeFiles_app root fs gs :
  mergeFiles root (fs ++ gs) =
  match mergeFiles root fs with
  | Ok r => mergeFiles r gs
  | Err e => Err e
  end.
Proof.
  revert root. induction fs as [|v fs IH]; intros root; simpl; [done|].
  destruct (unmarshalYAMLValue v) as [curr|err];
    [|by destruct (fileName v)].
  destruct (mergeMaps root curr) as [tmp|e]; [apply IH|done].
Qed.

Lemma mergeFiles_stops root fs v rest r :
  mergeFiles root fs = Ok r →
  mergeFiles root (fs ++ v :: rest) =
  match unmarshalYAMLValue v with
  | Ok curr =>
    match mergeMaps r curr with
    | Ok tmp => mergeFiles tmp rest
    | Err e => Err e
    end
  | Err err => Err (parseFailure v err)
  end.
Proof.
  intros Hfs. rewrite mergeFiles_app, Hfs. simpl. unfold parseFailure.
  destruct (unmarshalYAMLValue v); [done|]. by destruct (fileName v).
Qed.
End Layers.

Section Providers.
Variable Root : string.
Implicit Types (r curr : generic) (fs gs rest files : list reader) (v : reader).

Lemma newYAMLProviderCore_Ok files y :
  newYAMLProviderCore Root files = Ok y →
  mergeFiles Absent files = Ok (value (root y)).
Proof.
  unfold newYAMLProviderCore.
  destruct (mergeFiles Absent files) as [r|e]; [|done]. by intros [= <-].
Qed.

(** X5: The provider of a list of readers is the left fold of [mergeMaps]
    over their documents: one more reader at the end merges its document
    into the value the provider of the readers before it has. *)
Theorem newYAMLProviderCore_snoc fs v y :
  newYAMLProviderCore Root fs = Ok y →
  newYAMLProviderCore Root (fs ++ [v]) =
  match unmarshalYAMLValue v with
  | Ok curr =>
    match mergeMaps (value (root y)) curr with
    | Ok tmp => Ok (mkProvider (mkNode (getNodeType tmp) Root tmp None))
    | Err e => Err e
    end
  | Err err => Err (parseFailure v err)
  end.
Proof.
  intros Hy. apply newYAMLProviderCore_Ok in Hy.
  unfold newYAMLProviderCore. rewrite (mergeFiles_stops _ _ _ _ _ Hy).
  destruct (unmarshalYAMLValue v) as [curr|err]; [|done].
  by destruct (mergeMaps (value (root y)) curr).
Qed.

(** X6: A reader whose document is nil (an empty file) changes nothing,
    wherever it stands in the list. *)
Theorem newYAMLProviderCore_nil_document fs v gs :
  unmarshalYAMLValue v = Ok Absent →
  newYAMLProviderCore Root (fs ++ v :: gs) =
  newYAMLProviderCore Root (fs ++ gs).
Proof.
  intros Hv. unfold newYAMLProviderCore.
  rewrite !mergeFiles_app. destruct (mergeFiles Absent fs) as [r|e]; [|done].
  simpl. by rewrite Hv, mergeMaps_absent_r.
Qed.

(** X7: The constructor fails exactly at the first reader that does not
    parse, with the parse error wrapped with the name of the file when
    the reader is a file, or at the first reader whose document does not
    merge into the documents before it, with the error of [mergeMaps]. *)
Theorem newYAMLProviderCore_failure files e :
  newYAMLProviderCore Root files = Err e →
  ∃ fs v rest r,
    files = fs ++ v :: rest ∧ mergeFiles Absent fs = Ok r ∧
    match unmarshalYAMLValue v with
    | Ok curr => mergeMaps r curr = Err e
    | Err err => e = parseFailure v err
    end.
Proof.
  unfold newYAMLProviderCore.
  assert (H : ∀ root, (∃ y, mergeFiles root files = Err y ∧ y = e) →
    ∃ fs v rest r, files = fs ++ v :: rest ∧ mergeFiles root fs = Ok r ∧
      match unmarshalYAMLValue v with
      | Ok curr => mergeMaps r curr = Err e
      | Err err => e = parseFailure v err
      end).
  { induction files as [|v files IH]; intros root (y & Hy & <-); [done|].
    simpl in Hy.
    destruct (unmarshalYAMLValue v) as [curr|err] eqn:Hv.
    - destruct (mergeMaps root curr) as [tmp|e'] eqn:Hm.
      + destruct (IH tmp) as (fs & v' & rest & r & -> & Hfs & Hr); [by eexists|].
        exists (v :: fs), v', rest, r. split; [done|]. split; [|done].
        simpl. by rewrite Hv, Hm.
      + injection Hy as <-.
        exists [], v, files, root. split; [done|]. split; [done|].
        by rewrite Hv.
    - exists [], v, files, root. split; [done|]. split; [done|].
      rewrite Hv. unfold parseFailure.
      destruct (fileName v); by injection Hy as <-. }
  intros He. apply (H Absent).
  destruct (mergeFiles Absent files) as [r|e']; [done|].
  injection He as <-. by eexists.
Qed.


(** X9: A last document that is a scalar or a sequence replaces everything
    merged before it. *)
Theorem newYAMLProviderCore_last_wins fs v r curr :
  mergeFiles Absent fs = Ok r →
  unmarshalYAMLValue v = Ok curr →
  is_mapping curr = false → is_absent curr = false →
  newYAMLProviderCore Root (fs ++ [v]) =
  Ok (mkProvider (mkNode (getNodeType curr) Root curr None)).
Proof.
  intros Hfs Hv Hm Ha. unfold newYAMLProviderCore.
  rewrite (mergeFiles_stops _ _ _ _ _ Hfs), Hv.
  by rewrite (mergeMaps_overwrite r curr Hm Ha).
Qed.
End Providers.

(** ** Variable resolution, on every input *)

Local Open Scope Z_scope.

Section ReplaceMore.
Variable lookUp : string → string * bool.

Lemma Index_envSeparator_split body :
  Index body _envSeparator ≠ -1 →
  ∃ K D, body = K +:+ String ":" D ∧ Index K _envSeparator = -1.
Proof.
  induction body as [|c body IH]; [done|].
  unfold _envSeparator in *. cbn [Index String.prefix].
  destruct (ascii_dec ":" c) as [<-|Hc].
  - intros _. exists EmptyString, body. split; [done|]. done.
  - destruct (Z.eqb_spec (Index body ":") (-1)) as [|Hi]; [done|].
    intros _. destruct (IH Hi) as (K & D & -> & HK).
    exists (String c K), D. split; [done|].
    cbn [Index String.prefix]. destruct (ascii_dec ":" c); [done|].
    by rewrite HK.
Qed.

(** Every token body is a key without separator, alone or followed by a
    separator and a default. *)
Lemma body_split body :
  ∃ K D, Index K _envSeparator = -1 ∧
         (body = K +:+ String ":" D ∨ (D = EmptyString ∧ body = K)).
Proof.
  destruct (Z.eq_dec (Index body _envSeparator) (-1)) as [H|H].
  - exists body, EmptyString. auto.
  - destruct (Index_envSeparator_split body H) as (K & D & -> & HK).
    exists K, D. auto.
Qed.

Lemma replace_split K D body :
  Index K _envSeparator = -1 →
  body = K +:+ String ":" D ∨ (D = EmptyString ∧ body = K) →
  replace lookUp body =
  let '(envVal, ok) := lookUp K in
  if ok then Some (Ok envVal)
  else if String.eqb D EmptyString then Some (Err (DefaultEmpty K))
  else if String.eqb D _emptyDefault then Some (Ok EmptyString)
  else Some (Ok D).
Proof.
  intros HK [->|[-> ->]].
  - by apply replace_with_default.
  - rewrite (replace_no_separator lookUp K HK). by destruct (lookUp K) as [? []].
Qed.

(** X10: The slices [in[:sep]] and [in[sep+1:]] are always in range: the
    function returned by [replace] returns on every input. *)
Theorem replace_never_panics body : ∃ r, replace lookUp body = Some r.
Proof.
  destruct (body_split body) as (K & D & HK & Hb).
  rewrite (replace_split K D body HK Hb).
  destruct (lookUp K) as [envVal []]; [by eexists|].
  destruct (String.eqb D EmptyString); [by eexists|].
  destruct (String.eqb D _emptyDefault); by eexists.
Qed.

(** X11: The only error of [replace] is the one of an empty default: the body
    is a key that the lookup does not find, alone or followed by a
    separator and nothing, and the error names that key. *)
Theorem replace_error body e :
  replace lookUp body = Some (Err e) →
  ∃ K, e = DefaultEmpty K ∧ Index K _envSeparator = -1 ∧
       (lookUp K).2 = false ∧ (body = K ∨ body = K +:+ ":").
Proof.
  destruct (body_split body) as (K & D & HK & Hb).
  rewrite (replace_split K D body HK Hb).
  destruct (lookUp K) as [envVal ok] eqn:HL. destruct ok; [done|].
  destruct (String.eqb_spec D EmptyString) as [->|HD].
  - intros [= <-]. exists K. rewrite HL. split_and!; [done..|].
    destruct Hb as [->|[_ ->]]; auto.
  - destruct (String.eqb D _emptyDefault); done.
Qed.

End ReplaceMore.

Local Close Scope Z_scope.

(** ** Labels of sequence elements *)

Section Digits.
Context {fold : Folding} {laws : FoldingLaws}.
Implicit Types (s t : string) (a b : ascii).

Lemma pretty_N_char_digit x : is_digit (pretty_N_char x) = true.
Proof. unfold pretty_N_char. by repeat case_match. Qed.

Lemma pretty_N_go_digits x : ∀ s,
  all_digits s = true → all_digits (pretty_N_go x s) = true.
Proof.
  induction (N.lt_wf_0 x) as [x _ IH]; intros s Hs.
  destruct (decide (x = 0)%N) as [->|Hx]; [by rewrite pretty_N_go_0|].
  rewrite pretty_N_go_step by lia. apply IH.
  - apply N.div_lt; lia.
  - simpl. by rewrite pretty_N_char_digit.
Qed.

Lemma Itoa_digits (i : nat) : all_digits (Itoa (Z.of_nat i)) = true.
Proof.
  unfold Itoa, pretty, pretty_Z. destruct (Z.of_nat i) eqn:Hi; [done| |lia].
  unfold pretty, pretty_positive, pretty, pretty_N. simpl.
  by apply pretty_N_go_digits.
Qed.

(** Two decimal indices that match as labels are the same index. *)
Lemma Itoa_EqualFold (i j : nat) :
  EqualFold (Itoa (Z.of_nat i)) (Itoa (Z.of_nat j)) = true → i = j.
Proof.
  intros H%fold_digits; [|apply Itoa_digits].
  apply (inj pretty) in H. lia.
Qed.

Lemma pretty_N_go_nonempty x s : (0 < x)%N → pretty_N_go x s ≠ EmptyString.
Proof.
  revert s. induction (N.lt_wf_0 x) as [x _ IH]; intros s Hx.
  rewrite pretty_N_go_step by done.
  destruct (decide (x `div` 10 = 0)%N) as [->|Hd]; [by rewrite pretty_N_go_0|].
  apply IH; [apply N.div_lt; lia|]. by apply N.neq_0_lt_0.
Qed.

Lemma Itoa_nonempty (i : nat) : String.length (Itoa (Z.of_nat i)) ≠ 0.
Proof.
  assert (Itoa (Z.of_nat i) ≠ EmptyString) as H; [|by destruct (Itoa _)].
  unfold Itoa, pretty, pretty_Z. destruct (Z.of_nat i) eqn:Hi; [done| |lia].
  unfold pretty, pretty_positive, pretty, pretty_N. simpl.
  by apply pretty_N_go_nonempty.
Qed.
End Digits.

(** ** Cases of the descent *)

Section DescentCases.
Variable rangeMap : gmap scalar generic → list (scalar * generic).
Context {fold : Folding} {laws : FoldingLaws}.
Implicit Types (v : generic) (path candidate a rest : string).
Implicit Types (recS : generic → string → option (list nat)).
Implicit Types (c : string * generic) (cs : list (string * generic)).

Lemma matchChildren_none recS path candidate : ∀ cs i,
  Forall (λ c, EqualFold c.1 candidate = false) cs →
  matchChildren recS path candidate i cs = None.
Proof.
  induction cs as [|c cs IH]; intros i; [done|].
  intros [Hc Hcs]%Forall_cons. simpl. rewrite Hc. by apply IH.
Qed.

Lemma matchChildren_whole recS path : ∀ cs i j c,
  cs !! j = Some c → EqualFold c.1 path = true →
  (∀ j' c', j' < j → cs !! j' = Some c' → EqualFold c'.1 path = false) →
  matchChildren recS path path i cs = Some [i + j].
Proof.
  induction cs as [|c0 cs IH]; intros i j c Hj Hc Hbefore; [done|]. simpl.
  destruct j as [|j]; simpl in Hj.
  - injection Hj as ->. rewrite Hc, String.eqb_refl. by rewrite Nat.add_0_r.
  - rewrite (Hbefore 0 c0) by (done || lia).
    rewrite (IH (S i) j c Hj Hc); [do 2 f_equal; lia|].
    intros j' c' ??. apply (Hbefore (S j') c'); [lia|done].
Qed.

Lemma matchChildren_unique recS path a :
  String.eqb a path = false →
  ∀ cs off i c,
    cs !! i = Some c → EqualFold c.1 a = true →
    (∀ j c', cs !! j = Some c' → EqualFold c'.1 a = true → j = i) →
    matchChildren recS path a off cs =
    ((off + i) ::.) <$> recS c.2 (suffixAfter path a).
Proof.
  intros Hne. induction cs as [|c0 cs IH]; intros off i c Hi Hc Huniq; [done|].
  simpl. destruct i as [|i]; simpl in Hi.
  - injection Hi as ->. rewrite Hc, Hne, Nat.add_0_r.
    destruct (recS c.2 _) as [pos|]; [done|]. simpl.
    apply matchChildren_none, Forall_lookup. intros j c' Hj.
    destruct (EqualFold c'.1 a) eqn:Hc'; [|done].
    by pose proof (Huniq (S j) c' Hj Hc').
  - destruct (EqualFold c0.1 a) eqn:Hc0.
    { by pose proof (Huniq 0 c0 eq_refl Hc0). }
    rewrite (IH (S off) i c Hi Hc).
    + by replace (S off + i) with (off + S i) by lia.
    + intros j c' Hj Hc'. pose proof (Huniq (S j) c' Hj Hc'). lia.
Qed.

(** A path that is the label of a child is resolved to the first such
    child, before any shorter candidate is tried. *)
Lemma longestMatch_whole_key v path j c :
  String.length path ≠ 0 →
  childrenOf rangeMap v !! j = Some c → EqualFold c.1 path = true →
  (∀ j' c', j' < j → childrenOf rangeMap v !! j' = Some c' →
            EqualFold c'.1 path = false) →
  longestMatch rangeMap v path = Some [j].
Proof.
  intros Hlen Hj Hc Hbefore. rewrite longestMatch_eq, descend_unfold.
  destruct (Nat.eqb_spec (String.length path) 0) as [|_]; [done|]. simpl.
  by rewrite (matchChildren_whole _ path _ 0 j c Hj Hc Hbefore).
Qed.

Lemma descend_no_children skip recS v path :
  childrenOf rangeMap v = [] →
  ∀ k candidate, descend rangeMap skip recS v path k candidate = None.
Proof.
  intros Hv. induction k as [|k IH]; intros candidate;
    rewrite descend_unfold; destruct (skip && _); try done.
  rewrite Hv. simpl. destruct (truncate candidate); [apply IH|done].
Qed.

Lemma longestMatch_leaf v path :
  childrenOf rangeMap v = [] → longestMatch rangeMap v path = None.
Proof. intros Hv. rewrite longestMatch_eq. by apply descend_no_children. Qed.

(** When neither the first segment nor any label holds a separator, every
    candidate longer than the first segment fails, and the first segment
    decides. *)
Lemma descend_first_segment recS v a rest :
  String.length a ≠ 0 → LastIndex a _separator = (-1)%Z →
  Forall (λ c, LastIndex c.1 _separator = (-1)%Z) (childrenOf rangeMap v) →
  ∀ k j, String.length a ≤ j → j < k →
    descend rangeMap true recS v (a +:+ String "." rest) k
      (str_take j (a +:+ String "." rest)) =
    matchChildren recS (a +:+ String "." rest) a 0 (childrenOf rangeMap v).
Proof.
  intros Ha Hsep Hlabels. set (path := a +:+ String "." rest).
  induction k as [|k IH]; intros j Hj Hk; [lia|].
  rewrite descend_unfold.
  destruct (decide (j = String.length a)) as [->|Hne].
  - unfold path. rewrite str_take_app. fold path.
    destruct (Nat.eqb_spec (String.length a) 0) as [|_]; [done|]. simpl.
    destruct (matchChildren _ _ _ _ _); [done|].
    unfold truncate. by rewrite Hsep.
  - set (cand := str_take j path).
    assert (Hcand : cand = a +:+ String "." (str_take (j - S (String.length a)) rest)).
    { unfold cand, path. rewrite str_take_app_ge by lia.
      destruct (j - String.length a) as [|d] eqn:Hd; [lia|]. simpl.
      do 3 f_equal. lia. }
    pose proof (LastIndex_app_separator a
                  (str_take (j - S (String.length a)) rest)) as Hlast.
    rewrite <-Hcand in Hlast. unfold len in Hlast.
    pose proof (LastIndex_range cand) as Hrange. unfold len in Hrange.
    assert (Hlen : String.length cand ≠ 0).
    { rewrite Hcand, len_app_cons_nat. lia. }
    destruct (Nat.eqb_spec (String.length cand) 0) as [|_]; [done|]. simpl.
    rewrite matchChildren_none.
    2: { eapply Forall_impl; [exact Hlabels|]. intros c Hc. simpl in Hc.
         destruct (EqualFold c.1 cand) eqn:HE; [|done].
         apply (EqualFold_no_separator _ _ HE) in Hc. exfalso. lia. }
    unfold truncate.
    destruct (Z.ltb_spec 0 (LastIndex cand _separator)); [|lia].
    set (l := Z.to_nat (LastIndex cand _separator)).
    assert (Hjlen : String.length cand ≤ j).
    { unfold cand. destruct (decide (j ≤ String.length path)).
      - by rewrite str_take_length.
      - rewrite str_take_all; lia. }
    replace (str_take l cand) with (str_take l path).
    + apply IH; lia.
    + unfold cand. symmetry. apply str_take_take. lia.
Qed.

(** [a.rest] is looked up as [rest] under the child labelled [a], when
    that child is the only one so labelled and no label holds a
    separator. *)
Lemma longestMatch_first_segment v a rest i c :
  String.length a ≠ 0 → LastIndex a _separator = (-1)%Z →
  Forall (λ c, LastIndex c.1 _separator = (-1)%Z) (childrenOf rangeMap v) →
  childrenOf rangeMap v !! i = Some c → EqualFold c.1 a = true →
  (∀ j c', childrenOf rangeMap v !! j = Some c' →
           EqualFold c'.1 a = true → j = i) →
  longestMatch rangeMap v (a +:+ String "." rest) =
  (i ::.) <$> longestMatch rangeMap c.2 rest.
Proof.
  intros Ha Hsep Hlabels Hi Hc Huniq.
  rewrite longestMatch_eq.
  pose proof (descend_first_segment (longestMatch rangeMap) v a rest
                Ha Hsep Hlabels
                (S (String.length (a +:+ String "." rest)))
                (String.length (a +:+ String "." rest))) as H.
  rewrite str_take_all in H by done. rewrite H.
  2: { rewrite len_app_cons_nat. lia. }
  2: lia.
  rewrite (matchChildren_unique _ _ a) with (i := i) (c := c); try done.
  - by rewrite suffixAfter_app.
  - apply String.eqb_neq. intros Heq.
    apply (f_equal String.length) in Heq. rewrite len_app_cons_nat in Heq. lia.
Qed.
End DescentCases.

(** ** Lookups *)

Section Lookups.
Variable rangeMap : gmap scalar generic → list (scalar * generic).
Context {fold : Folding} {laws : FoldingLaws}.
Implicit Types (st : store) (p q : ptr) (n : yamlNode).
Implicit Types (c : string * generic) (path a rest : string).

(** When the descent stops at a child of the start node, [Find] returns
    the node of that child. *)
Lemma Find_at_child st p n path j c :
  wf_store rangeMap st → nodes st !! p = Some n →
  longestMatch rangeMap (value n) path = Some [j] →
  childrenOf rangeMap (value n) !! j = Some c →
  ∃ q st' nq,
    Find rangeMap p path st = Some (Some q, st') ∧
    nodes st' !! q = Some nq ∧ key nq = c.1 ∧ value nq = c.2.
Proof.
  intros Hwf Hn Hm Hc.
  destruct (Find_refines rangeMap st p n path Hwf Hn)
    as (r & st' & HF & Hwf' & Hext & Ha).
  rewrite Hm in Ha. destruct Ha as (q & -> & Hq). simpl in Hq.
  destruct (cache st' p) as [cc|] eqn:Hcc; [simpl in Hq|done].
  destruct (cc !! j) as [q'|] eqn:Hj; [simpl in Hq|done].
  injection Hq as ->.
  destruct (Hext p n Hn) as [(n' & Hn' & _ & Hv) _].
  pose proof (wf_store_cache rangeMap st' p n' cc Hwf' Hn' Hcc) as HF2.
  rewrite Hv in HF2.
  destruct (Forall2_lookup_l _ _ _ _ _ HF2 Hj) as (e & He & nq & Hnq & Hk & Hval).
  assert (e = c) as -> by congruence. by exists q, st', nq.
Qed.

(** X12: A path that is, up to case, the label of a child is resolved to the
    first such child, also when the label holds separators. *)
Theorem Find_literal_key st p n path j c :
  wf_store rangeMap st → nodes st !! p = Some n →
  String.length path ≠ 0 →
  childrenOf rangeMap (value n) !! j = Some c →
  EqualFold c.1 path = true →
  (∀ j' c', j' < j → childrenOf rangeMap (value n) !! j' = Some c' →
            EqualFold c'.1 path = false) →
  ∃ q st' nq,
    Find rangeMap p path st = Some (Some q, st') ∧
    nodes st' !! q = Some nq ∧ key nq = c.1 ∧ value nq = c.2.
Proof.
  intros Hwf Hn Hlen Hj Hc Hbefore.
  apply (Find_at_child st p n path j c Hwf Hn); [|done].
  by apply (longestMatch_whole_key rangeMap (value n) path j c).
Qed.

(** X13: The decimal index of an element finds that element of a sequence. *)
Theorem Find_sequence_element st p n l i x :
  wf_store rangeMap st → nodes st !! p = Some n →
  value n = Sequence l → l !! i = Some x →
  ∃ q st' nq,
    Find rangeMap p (Itoa (Z.of_nat i)) st = Some (Some q, st') ∧
    nodes st' !! q = Some nq ∧ key nq = Itoa (Z.of_nat i) ∧ value nq = x.
Proof.
  intros Hwf Hn Hv Hi.
  assert (Hc : ∀ j, childrenOf rangeMap (value n) !! j =
                    (λ y, (Itoa (Z.of_nat j), y)) <$> l !! j).
  { intros j. rewrite Hv. simpl. unfold arrayEntries.
    by rewrite list_lookup_imap. }
  apply (Find_at_child st p n _ i (Itoa (Z.of_nat i), x) Hwf Hn);
    [|by rewrite Hc, Hi].
  apply (longestMatch_whole_key rangeMap (value n) _ i (Itoa (Z.of_nat i), x)).
  - apply Itoa_nonempty.
  - by rewrite Hc, Hi.
  - apply fold_refl.
  - intros j' c' Hlt. rewrite Hc. destruct (l !! j'); [simpl|done].
    intros [= <-]. simpl. destruct (EqualFold _ _) eqn:HE; [|done].
    apply Itoa_EqualFold in HE. lia.
Qed.

(** X14: Nothing is found below a value node, whatever the path. *)
Theorem Find_below_leaf st p n path :
  wf_store rangeMap st → nodes st !! p = Some n →
  nodeKind n = valueNode →
  ∃ st', Find rangeMap p path st = Some (None, st').
Proof.
  intros Hwf Hn Hk.
  destruct (Find_refines rangeMap st p n path Hwf Hn)
    as (r & st' & HF & _ & _ & Ha).
  destruct (Hwf p n Hn) as [Hkind _]. rewrite Hk in Hkind.
  rewrite longestMatch_leaf in Ha by by destruct (value n).
  simpl in Ha. subst r. by exists st'.
Qed.

(** X15: [a.rest] is resolved as [rest] below the child labelled [a], when
    no label of the node holds a separator and that child is the only one
    whose label is [a] up to case. *)
Theorem Find_first_segment st p n a rest i c :
  wf_store rangeMap st → nodes st !! p = Some n →
  String.length a ≠ 0 → LastIndex a _separator = (-1)%Z →
  Forall (λ c, LastIndex c.1 _separator = (-1)%Z)
         (childrenOf rangeMap (value n)) →
  childrenOf rangeMap (value n) !! i = Some c → EqualFold c.1 a = true →
  (∀ j c', childrenOf rangeMap (value n) !! j = Some c' →
           EqualFold c'.1 a = true → j = i) →
  ∃ r st',
    Find rangeMap p (a +:+ String "." rest) st = Some (r, st') ∧
    answers st' p r ((i ::.) <$> longestMatch rangeMap c.2 rest).
Proof.
  intros Hwf Hn Ha Hsep Hlabels Hi Hc Huniq.
  destruct (Find_refines rangeMap st p n (a +:+ String "." rest) Hwf Hn)
    as (r & st' & HF & _ & _ & Hans).
  exists r, st'. split; [done|].
  by rewrite (longestMatch_first_segment rangeMap (value n) a rest i c)
    in Hans.
Qed.

Variable Root : string.

Lemma newYAMLProviderCore_root files y :
  newYAMLProviderCore Root files = Ok y →
  nodeKind (root y) = getNodeType (value (root y)) ∧
  key (root y) = Root ∧ children (root y) = None.
Proof.
  unfold newYAMLProviderCore.
  destruct (mergeFiles Absent files) as [v|e]; [|done]. by intros [= <-].
Qed.

(** [Get] in terms of the descent. *)
Lemma Get_refines files y :
  newYAMLProviderCore Root files = Ok y →
  Get rangeMap Root y Root = Some (NewValue y Root (value (root y)) true) ∧
  ∀ k, k ≠ Root →
    match longestMatch rangeMap (value (root y)) k with
    | Some pos =>
      ∃ v, valueAt rangeMap (value (root y)) pos = Some v ∧
           Get rangeMap Root y k = Some (NewValue y k v true)
    | None => Get rangeMap Root y k = Some (NewValue y k Absent false)
    end.
Proof.
  intros Hy. destruct (newYAMLProviderCore_root files y Hy) as (Hk & _ & Hc).
  split.
  { unfold Get, getNode. by rewrite String.eqb_refl. }
  intros k Hne. unfold Get, getNode.
  rewrite (proj2 (String.eqb_neq k Root) Hne).
  pose proof (wf_store_load rangeMap y Hk Hc) as Hwf.
  destruct (Find_refines rangeMap (load y) 0 (root y) k Hwf eq_refl)
    as (r & st' & -> & Hwf' & Hext & Ha). simpl.
  destruct (longestMatch rangeMap (value (root y)) k) as [pos|]; simpl in Ha.
  - destruct Ha as (q & -> & Hq).
    destruct (Hext 0 (root y) eq_refl) as [(n' & Hn' & _ & Hv) _].
    destruct (nodeAt_valueAt rangeMap st' pos 0 n' q Hwf' Hn' Hq)
      as (nq & Hnq & Hval).
    exists (value nq). rewrite <-Hv. split; [done|]. by rewrite Hnq.
  - by subst r.
Qed.

(** X16: [Get] on a provider that [newYAMLProviderCore] built never panics:
    the root key gives the merged root with [found] set, also when there
    is no document; any other key gives the value at the position of the
    longest-match descent with [found] set, or nil with [found] unset. *)
Theorem Get_lookup files y :
  newYAMLProviderCore Root files = Ok y →
  Get rangeMap Root y Root = Some (NewValue y Root (value (root y)) true) ∧
  ∀ k, k ≠ Root →
    match longestMatch rangeMap (value (root y)) k with
    | Some pos =>
      ∃ v, valueAt rangeMap (value (root y)) pos = Some v ∧
           Get rangeMap Root y k = Some (NewValue y k v true)
    | None => Get rangeMap Root y k = Some (NewValue y k Absent false)
    end.
Proof. apply Get_refines. Qed.

End Lookups.

(** ** The order of the maps *)

Section Order.
Variables rangeMap1 rangeMap2 : gmap scalar generic → list (scalar * generic).
Context {fold : Folding} {laws : FoldingLaws}.
Hypothesis rangeMap1_perm : ∀ m, rangeMap1 m ≡ₚ map_to_list m.
Hypothesis rangeMap2_perm : ∀ m, rangeMap2 m ≡ₚ map_to_list m.
Implicit Types (v : generic) (path cand : string).
Implicit Types (c : string * generic) (cs : list (string * generic)).
Implicit Types (recS : generic → string → option (list nat)).

Lemma unambiguous_lookup m k x :
  unambiguous (Mapping m) → m !! k = Some x → unambiguous x.
Proof.
  simpl. intros [_ H]. revert H k x.
  apply (map_fold_weak_ind
           (λ r m, r → ∀ k x, m !! k = Some x → unambiguous x)).
  - intros _ k x. by rewrite lookup_empty.
  - intros i y m' r Hi IH [Hy Hr] k x.
    destruct (decide (i = k)) as [->|Hne].
    + rewrite lookup_insert_eq. by intros [= <-].
    + rewrite lookup_insert_ne by done. by apply IH.
Qed.

Lemma unambiguous_Mapping m :
  (∀ k1 k2, is_Some (m !! k1) → is_Some (m !! k2) →
     EqualFold (Sprintf_v k1) (Sprintf_v k2) = true → k1 = k2) →
  (∀ k x, m !! k = Some x → unambiguous x) →
  unambiguous (Mapping m).
Proof.
  intros Hkeys H. simpl. split; [done|]. revert H.
  apply (map_fold_weak_ind
           (λ r m, (∀ k x, m !! k = Some x → unambiguous x) → r)); [done|].
  intros i y m' r Hi IH H. split.
  - apply (H i). by rewrite lookup_insert_eq.
  - apply IH. intros k x Hk. apply (H k).
    rewrite lookup_insert_ne; [done|]. intros ->. congruence.
Qed.

Lemma unambiguous_elem l i x :
  unambiguous (Sequence l) → l !! i = Some x → unambiguous x.
Proof.
  simpl. revert i. induction l as [|y l IH]; intros [|i]; simpl; try done.
  - by intros [? _] [= <-].
  - intros [_ ?]. by apply IH.
Qed.

Section OneOrder.
Variable rangeMap : gmap scalar generic → list (scalar * generic).
Hypothesis rangeMap_perm : ∀ m, rangeMap m ≡ₚ map_to_list m.

Lemma objectEntries_lookup m i c :
  objectEntries rangeMap m !! i = Some c →
  ∃ k, rangeMap m !! i = Some (k, c.2) ∧ c.1 = Sprintf_v k ∧
       m !! k = Some c.2.
Proof.
  unfold objectEntries. rewrite list_lookup_fmap.
  destruct (rangeMap m !! i) as [[k x]|] eqn:Hi; [simpl|done].
  intros [= <-]. exists k. split_and!; [done..|].
  apply elem_of_map_to_list. rewrite <-rangeMap_perm.
  by apply list_elem_of_lookup_2 in Hi.
Qed.

Lemma childrenOf_unambiguous v i c :
  unambiguous v → childrenOf rangeMap v !! i = Some c → unambiguous c.2.
Proof.
  destruct v as [| |l|m]; simpl; [done..| |].
  - intros Hv. unfold arrayEntries. rewrite list_lookup_imap.
    destruct (l !! i) as [x|] eqn:Hi; [simpl|done]. intros [= <-].
    by apply (unambiguous_elem l i x).
  - intros Hv (k & _ & _ & Hk)%objectEntries_lookup.
    by apply (unambiguous_lookup m k).
Qed.

(** The labels of the children match no other child. *)
Lemma childrenOf_distinct v i j ci cj :
  unambiguous v →
  childrenOf rangeMap v !! i = Some ci →
  childrenOf rangeMap v !! j = Some cj →
  EqualFold ci.1 cj.1 = true → i = j.
Proof.
  destruct v as [| |l|m]; simpl; [done..| |].
  - intros _. unfold arrayEntries. rewrite !list_lookup_imap.
    destruct (l !! i); [simpl|done]. destruct (l !! j); [simpl|done].
    intros [= <-] [= <-]. simpl. apply Itoa_EqualFold.
  - intros [Hkeys _] (ki & Hi & Hli & Hmi)%objectEntries_lookup
      (kj & Hj & Hlj & Hmj)%objectEntries_lookup. rewrite Hli, Hlj.
    intros Hm. assert (ki = kj) as -> by (apply Hkeys; eauto).
    assert (Hnd : NoDup (rangeMap m).*1).
    { rewrite rangeMap_perm. apply NoDup_fst_map_to_list. }
    apply (NoDup_lookup _ i j kj Hnd); rewrite list_lookup_fmap.
    + by rewrite Hi.
    + by rewrite Hj.
Qed.
End OneOrder.

Lemma childrenOf_perm v :
  childrenOf rangeMap1 v ≡ₚ childrenOf rangeMap2 v.
Proof.
  destruct v as [| |l|m]; simpl; [done..|]. unfold objectEntries.
  by rewrite rangeMap1_perm, rangeMap2_perm.
Qed.

(** What [matchChildren] does when at most one child matches. *)
Lemma matchChildren_cases recS path cand : ∀ cs off,
  (∀ i j ci cj, cs !! i = Some ci → cs !! j = Some cj →
     EqualFold ci.1 cand = true → EqualFold cj.1 cand = true → i = j) →
  (Forall (λ c, EqualFold c.1 cand = false) cs ∧
   matchChildren recS path cand off cs = None) ∨
  (∃ i c, cs !! i = Some c ∧ EqualFold c.1 cand = true ∧
     matchChildren recS path cand off cs =
     if String.eqb cand path then Some [off + i]
     else ((off + i) ::.) <$> recS c.2 (suffixAfter path cand)).
Proof.
  induction cs as [|c0 cs IH]; intros off Huniq; [by left|].
  destruct (EqualFold c0.1 cand) eqn:Hc0.
  - right. exists 0, c0. split; [done|]. split; [done|]. simpl.
    rewrite Hc0, Nat.add_0_r. destruct (String.eqb cand path); [done|].
    destruct (recS c0.2 _) as [pos|]; [done|]. simpl.
    apply matchChildren_none, Forall_lookup. intros j c' Hj.
    destruct (EqualFold c'.1 cand) eqn:Hc'; [|done].
    by pose proof (Huniq 0 (S j) c0 c' eq_refl Hj Hc0 Hc').
  - destruct (IH (S off)) as [[HF Hnone]|(i & c & Hi & Hc & Hm)].
    + intros i j ci cj Hi Hj Hci Hcj.
      pose proof (Huniq (S i) (S j) ci cj Hi Hj Hci Hcj). lia.
    + left. split; [by constructor|]. simpl. by rewrite Hc0.
    + right. exists (S i), c. split; [done|]. split; [done|]. simpl.
      rewrite Hc0, Hm. by replace (S off + i) with (off + S i) by lia.
Qed.

Lemma matchChildren_order recS1 recS2 v path cand :
  unambiguous v →
  (String.eqb cand path = false →
   ∀ i c, childrenOf rangeMap1 v !! i = Some c →
     same_value rangeMap1 rangeMap2 c.2
       (recS1 c.2 (suffixAfter path cand))
       (recS2 c.2 (suffixAfter path cand))) →
  same_value rangeMap1 rangeMap2 v
    (matchChildren recS1 path cand 0 (childrenOf rangeMap1 v))
    (matchChildren recS2 path cand 0 (childrenOf rangeMap2 v)).
Proof.
  intros Hv Hrec.
  assert (Huniq : ∀ rangeMap, (∀ m, rangeMap m ≡ₚ map_to_list m) →
    ∀ i j ci cj, childrenOf rangeMap v !! i = Some ci →
      childrenOf rangeMap v !! j = Some cj →
      EqualFold ci.1 cand = true → EqualFold cj.1 cand = true → i = j).
  { intros rangeMap Hperm i j ci cj Hi Hj Hci Hcj.
    apply (childrenOf_distinct rangeMap Hperm v i j ci cj Hv Hi Hj).
    apply (fold_trans _ cand); [done|]. by apply fold_sym. }
  destruct (matchChildren_cases recS1 path cand (childrenOf rangeMap1 v) 0
              (Huniq rangeMap1 rangeMap1_perm))
    as [[HF1 ->]|(i1 & c1 & Hi1 & Hc1 & ->)];
  destruct (matchChildren_cases recS2 path cand (childrenOf rangeMap2 v) 0
              (Huniq rangeMap2 rangeMap2_perm))
    as [[HF2 ->]|(i2 & c2 & Hi2 & Hc2 & ->)].
  - done.
  - exfalso. apply list_elem_of_lookup_2 in Hi2.
    rewrite <-childrenOf_perm in Hi2.
    rewrite Forall_forall in HF1. by rewrite (HF1 c2 Hi2) in Hc2.
  - exfalso. apply list_elem_of_lookup_2 in Hi1.
    rewrite childrenOf_perm in Hi1.
    rewrite Forall_forall in HF2. by rewrite (HF2 c1 Hi1) in Hc1.
  - assert (c2 = c1) as ->.
    { pose proof (list_elem_of_lookup_2 _ _ _ Hi2) as Hin.
      rewrite <-childrenOf_perm in Hin.
      apply list_elem_of_lookup_1 in Hin as [j Hj].
      assert (j = i1) as -> by by apply (Huniq rangeMap1 rangeMap1_perm j i1 c2 c1).
      congruence. }
    destruct (String.eqb cand path) eqn:Heq.
    + exists c1.2. simpl. by rewrite Hi1, Hi2.
    + specialize (Hrec eq_refl i1 c1 Hi1).
      destruct (recS1 c1.2 _) as [p1|], (recS2 c1.2 _) as [p2|]; try done.
      destruct Hrec as (w & H1 & H2). exists w. simpl.
      by rewrite Hi1, Hi2.
Qed.

Lemma truncate_prefix path cand shorter :
  cand = str_take (String.length cand) path →
  truncate cand = Some shorter →
  shorter = str_take (String.length shorter) path ∧
  String.length shorter < String.length cand.
Proof.
  intros Hpre. unfold truncate.
  pose proof (LastIndex_range cand) as Hl. unfold len in Hl.
  destruct (0 <? _)%Z eqn:Hpos; [|done]. apply Z.ltb_lt in Hpos.
  intros [= <-]. set (l := Z.to_nat (LastIndex cand _separator)).
  assert (Hlen : String.length (str_take l cand) = l)
    by (apply str_take_length; lia).
  rewrite Hlen. split; [|lia].
  rewrite Hpre at 1. apply str_take_take. lia.
Qed.

Lemma descend_order recS1 recS2 v path :
  unambiguous v →
  (∀ i c path', childrenOf rangeMap1 v !! i = Some c →
     String.length path' < String.length path →
     same_value rangeMap1 rangeMap2 c.2 (recS1 c.2 path') (recS2 c.2 path')) →
  ∀ k cand, cand = str_take (String.length cand) path →
    same_value rangeMap1 rangeMap2 v
      (descend rangeMap1 true recS1 v path k cand)
      (descend rangeMap2 true recS2 v path k cand).
Proof.
  intros Hv Hrec. induction k as [|k IH]; intros cand Hpre;
    rewrite !descend_unfold; destruct (true && _); try done.
  pose proof (matchChildren_order recS1 recS2 v path cand Hv) as Hm.
  destruct (matchChildren recS1 _ _ _ _) as [p1|],
    (matchChildren recS2 _ _ _ _) as [p2|].
  - apply Hm. intros Hne i c Hi. apply (Hrec i c _ Hi).
    by apply (slice_from_suffix path cand Hpre Hne).
  - exfalso. apply Hm. intros Hne i c Hi. apply (Hrec i c _ Hi).
    by apply (slice_from_suffix path cand Hpre Hne).
  - exfalso. apply Hm. intros Hne i c Hi. apply (Hrec i c _ Hi).
    by apply (slice_from_suffix path cand Hpre Hne).
  - destruct (truncate cand) as [shorter|] eqn:Ht; [|done].
    apply IH. by apply (truncate_prefix path cand shorter Hpre Ht).
Qed.

(** The value that the descent finds does not depend on the order in
    which the maps are ranged over, when no two keys of a map match. *)
Lemma longestMatch_order n : ∀ v path,
  String.length path < n → unambiguous v →
  same_value rangeMap1 rangeMap2 v
    (longestMatch rangeMap1 v path) (longestMatch rangeMap2 v path).
Proof.
  induction n as [|n IH]; intros v path Hn Hv; [lia|].
  rewrite !longestMatch_eq. apply descend_order; [done| |by rewrite str_take_all].
  intros i c path' Hi Hlt. apply IH; [lia|].
  by apply (childrenOf_unambiguous rangeMap1 rangeMap1_perm v i c).
Qed.
End Order.

Section Determinism.
Variables rangeMap1 rangeMap2 : gmap scalar generic → list (scalar * generic).
Context {fold : Folding} {laws : FoldingLaws}.
Variable Root : string.
Hypothesis rangeMap1_perm : ∀ m, rangeMap1 m ≡ₚ map_to_list m.
Hypothesis rangeMap2_perm : ∀ m, rangeMap2 m ≡ₚ map_to_list m.

(** X17: on a document without two keys of one map that match, [Get]
    does not depend on the order in which the maps are ranged over, nor
    on the case of the key: two calls, each with its own order, for two
    keys that match, neither or both of them the root key, return the
    same value and the same [found]. *)
Theorem Get_deterministic files y k1 k2 :
  newYAMLProviderCore Root files = Ok y →
  unambiguous (value (root y)) →
  EqualFold k1 k2 = true →
  String.eqb k1 Root = String.eqb k2 Root →
  (λ x, (valueOf x, foundOf x)) <$> Get rangeMap1 Root y k1 =
  (λ x, (valueOf x, foundOf x)) <$> Get rangeMap2 Root y k2.
Proof.
  intros Hy Hv Hk HR.
  destruct (Get_refines rangeMap1 Root files y Hy) as [Hroot1 Hget1].
  destruct (Get_refines rangeMap2 Root files y Hy) as [Hroot2 Hget2].
  destruct (String.eqb_spec k2 Root) as [->|Hne2].
  { apply String.eqb_eq in HR as ->. by rewrite Hroot1, Hroot2. }
  apply String.eqb_neq in HR. specialize (Hget1 k1 HR).
  specialize (Hget2 k2 Hne2).
  rewrite <-(longestMatch_case_blind rangeMap2 _ (value (root y)) k1 k2
               (Nat.lt_succ_diag_r _) Hk) in Hget2.
  pose proof (longestMatch_order rangeMap1 rangeMap2
                rangeMap1_perm rangeMap2_perm _ (value (root y)) k1
                (Nat.lt_succ_diag_r _) Hv) as Hsame.
  destruct (longestMatch rangeMap1 _ k1) as [p1|],
    (longestMatch rangeMap2 _ k1) as [p2|]; try done.
  - destruct Hget1 as (w1 & Hw1 & ->), Hget2 as (w2 & Hw2 & ->).
    destruct Hsame as (w & H1 & H2). simpl. congruence.
  - by rewrite Hget1, Hget2.
Qed.
End Determinism.

(** ** Providers from files *)

Section FilesFacts.
Variable osOpen : string → option osFile * option error.
Implicit Types (files pre rest : list string) (fs readers : list osFile).

Lemma openAll_opens files : ∀ readers fs,
  opens osOpen files fs →
  openAll osOpen readers files = (Ok (readers ++ fs), []).
Proof.
  induction files as [|v files IH]; intros readers fs Hfs.
  - apply Forall2_nil_inv_l in Hfs as ->. by rewrite app_nil_r.
  - apply Forall2_cons_inv_l in Hfs as (f & fs' & Hf & Hfs & ->).
    simpl. rewrite Hf, (IH _ fs' Hfs). by rewrite <-app_assoc.
Qed.


Lemma closeAll_Some e fs : closeAll (Some e) fs = Some e.
Proof. unfold closeAll. by induction fs. Qed.

Lemma closeAll_None fs : closeAll None fs = head (omap osClose fs).
Proof.
  unfold closeAll. induction fs as [|f fs IH]; [done|]. simpl.
  destruct (osClose f) as [e|]; [|exact IH]. simpl. apply closeAll_Some.
Qed.


(** X19: When every file opens, the constructor runs on the files in order,
    every file is closed once, in order, whatever the constructor
    returned, and the error returned is the one of the constructor or
    else the first error of a [Close]; the provider is returned beside
    it. *)
Theorem fromFiles_closes_every_file {P : Type}
    (build : list reader → option P * option error) files fs :
  opens osOpen files fs →
  fromFiles osOpen build files =
  ((fst (build (fileReader <$> fs)),
    match snd (build (fileReader <$> fs)) with
    | Some e => Some e
    | None => head (omap osClose fs)
    end),
   fs).
Proof.
  intros Hfs. unfold fromFiles, filesToReaders.
  rewrite (openAll_opens files [] fs Hfs). simpl.
  destruct (build (fileReader <$> fs)) as [provider [e|]]; simpl.
  - by rewrite closeAll_Some.
  - by rewrite closeAll_None.
Qed.

(** X20: A file that does not parse stops [NewYAMLProviderFromFiles] with the
    parse error wrapped with the name of that file; no provider is
    returned, every file is closed, and the errors of [Close] are not
    reported. *)
Theorem NewYAMLProviderFromFiles_parse_error {P : Type} Root
    (newCachedProvider : yamlConfigProvider → option P * option error)
    files before f after r err :
  opens osOpen files (before ++ f :: after) →
  mergeFiles Absent (fileReader <$> before) = Ok r →
  osContent f = Err err →
  NewYAMLProviderFromFiles osOpen Root newCachedProvider files =
  ((None, Some (InFile (osName f) err)), before ++ f :: after).
Proof.
  intros Hfs Hbefore Hf. unfold NewYAMLProviderFromFiles, fromFiles, filesToReaders.
  rewrite (openAll_opens files [] _ Hfs). simpl.
  unfold NewYAMLProviderFromReader, newYAMLProviderCore.
  rewrite fmap_app, fmap_cons, (mergeFiles_stops _ _ _ _ r Hbefore). simpl.
  rewrite Hf. simpl. by rewrite closeAll_Some.
Qed.
End FilesFacts.

(** ** Instances *)

Lemma mergeMaps_error_witness :
  ∃ a s,
    MergeConflict (Scalar (SString "x"))
                  (Mapping {[SString "b" := Scalar (SInt 1)]}) =
    MergeConflict a (Mapping s) ∧
    is_mapping a = false ∧ is_absent a = false.
Proof.
  apply (mergeMaps_error
           (Mapping {[SString "a" :=
                        Mapping {[SString "b" := Scalar (SInt 1)]}]})
           (Mapping {[SString "a" := Scalar (SString "x")]})).
  reflexivity.
Defined.

Lemma mergeMaps_flat_witness :
  mergeMaps
    (Mapping (<[SString "port" := Scalar (SInt 80)]>
                {[SString "host" := Scalar (SString "a")]}))
    (Mapping {[SString "port" := Scalar (SInt 8080)]}) =
  Ok (Mapping ({[SString "port" := Scalar (SInt 8080)]} ∪
               <[SString "port" := Scalar (SInt 80)]>
                 {[SString "host" := Scalar (SString "a")]})).
Proof.
  apply mergeMaps_flat. by apply map_Forall_singleton.
Defined.

Lemma mergeMaps_disjoint_witness :
  mergeMaps (Mapping {[SString "host" := Scalar (SString "a")]})
            (Mapping {[SString "port" := Scalar (SInt 8080)]}) =
  Ok (Mapping ({[SString "host" := Scalar (SString "a")]} ∪
               {[SString "port" := Scalar (SInt 8080)]})).
Proof.
  apply mergeMaps_disjoint. by apply map_disjoint_singleton_l_2.
Defined.

Lemma newYAMLProviderCore_snoc_witness :
  newYAMLProviderCore EmptyString
    ([reader_Ab] ++ [mkReader None (Ok (Scalar (SInt 7)))]) =
  Ok (mkProvider (mkNode valueNode EmptyString (Scalar (SInt 7)) None)).
Proof.
  rewrite (newYAMLProviderCore_snoc EmptyString [reader_Ab]
             (mkReader None (Ok (Scalar (SInt 7)))) provider_Ab eq_refl).
  reflexivity.
Defined.

Lemma newYAMLProviderCore_nil_document_witness :
  newYAMLProviderCore EmptyString
    ([reader_Ab] ++ mkReader None (Ok Absent) :: [reader_Ab]) =
  newYAMLProviderCore EmptyString ([reader_Ab] ++ [reader_Ab]).
Proof.
  apply (newYAMLProviderCore_nil_document EmptyString [reader_Ab]
           (mkReader None (Ok Absent)) [reader_Ab]).
  reflexivity.
Defined.

Lemma newYAMLProviderCore_failure_witness :
  ∃ fs v rest r,
    [reader_Ab; reader_bad; reader_Ab] = fs ++ v :: rest ∧
    mergeFiles Absent fs = Ok r ∧
    match unmarshalYAMLValue v with
    | Ok curr =>
      mergeMaps r curr =
      Err (InFile "bad.yaml" (ParseError "yaml: did not find expected key"))
    | Err err =>
      InFile "bad.yaml" (ParseError "yaml: did not find expected key") =
      parseFailure v err
    end.
Proof.
  apply (newYAMLProviderCore_failure EmptyString
           [reader_Ab; reader_bad; reader_Ab]).
  reflexivity.
Defined.


Lemma newYAMLProviderCore_last_wins_witness :
  newYAMLProviderCore EmptyString
    ([reader_Ab] ++ [mkReader None (Ok tree_list)]) =
  Ok (mkProvider (mkNode arrayNode EmptyString tree_list None)).
Proof.
  apply (newYAMLProviderCore_last_wins EmptyString [reader_Ab]
           (mkReader None (Ok tree_list)) tree_Ab tree_list);
    reflexivity.
Defined.

Lemma replace_error_witness :
  ∃ K, DefaultEmpty "HOME" = DefaultEmpty K ∧
       Index K _envSeparator = (-1)%Z ∧
       ((λ _ : string, (EmptyString, false)) K).2 = false ∧
       ("HOME:" = K ∨ "HOME:" = K +:+ ":").
Proof.
  apply (replace_error (λ _, (EmptyString, false)) "HOME:"
           (DefaultEmpty "HOME")).
  reflexivity.
Defined.

Lemma Find_literal_key_witness :
  ∃ q st' nq,
    Find map_to_list 0 "a" store_Ab = Some (Some q, st') ∧
    nodes st' !! q = Some nq ∧ key nq = "A" ∧
    value nq = Mapping {[SString "b" := Scalar (SInt 1)]}.
Proof.
  apply (Find_literal_key map_to_list store_Ab 0
           (mkNode objectNode EmptyString tree_Ab None) "a" 0
           ("A", Mapping {[SString "b" := Scalar (SInt 1)]}));
    [exact wf_store_Ab|reflexivity|done|reflexivity|reflexivity|].
  intros j' c' Hlt. lia.
Defined.

Lemma Find_sequence_element_witness :
  ∃ q st' nq,
    Find map_to_list 0 (Itoa 1)
         (load (mkProvider (mkNode arrayNode EmptyString tree_list None))) =
      Some (Some q, st') ∧
    nodes st' !! q = Some nq ∧ key nq = Itoa 1 ∧ value nq = Scalar (SInt 6).
Proof.
  apply (Find_sequence_element map_to_list
           (load (mkProvider (mkNode arrayNode EmptyString tree_list None)))
           0 (mkNode arrayNode EmptyString tree_list None)
           [Scalar (SInt 5); Scalar (SInt 6)] 1 (Scalar (SInt 6)));
    [by apply wf_store_load|reflexivity..].
Defined.

Lemma Find_below_leaf_witness :
  ∃ st',
    Find map_to_list 0 "a.b"
         (load (mkProvider
                  (mkNode valueNode EmptyString (Scalar (SInt 1)) None))) =
    Some (None, st').
Proof.
  apply (Find_below_leaf map_to_list _ 0
           (mkNode valueNode EmptyString (Scalar (SInt 1)) None) "a.b");
    [by apply wf_store_load|reflexivity..].
Defined.

Lemma Find_first_segment_witness :
  ∃ r st',
    Find map_to_list 0 "a.b" store_Ab = Some (r, st') ∧
    answers st' 0 r
      ((0 ::.) <$> longestMatch map_to_list
                     (Mapping {[SString "b" := Scalar (SInt 1)]}) "b").
Proof.
  assert (Hc : childrenOf map_to_list tree_Ab =
               [("A", Mapping {[SString "b" := Scalar (SInt 1)]})])
    by reflexivity.
  apply (Find_first_segment map_to_list store_Ab 0
           (mkNode objectNode EmptyString tree_Ab None) "a" "b" 0
           ("A", Mapping {[SString "b" := Scalar (SInt 1)]}));
    [exact wf_store_Ab|reflexivity|done|reflexivity| |reflexivity
    |reflexivity|].
  - simpl value. rewrite Hc. by repeat constructor.
  - simpl value. rewrite Hc. intros [|j] c'; [done|]. by destruct j.
Defined.

Lemma Get_lookup_witness :
  Get map_to_list EmptyString provider_Ab EmptyString =
    Some (NewValue provider_Ab EmptyString tree_Ab true) ∧
  Get map_to_list EmptyString provider_Ab "A.B" =
    Some (NewValue provider_Ab "A.B" (Scalar (SInt 1)) true) ∧
  Get map_to_list EmptyString provider_Ab "A.c" =
    Some (NewValue provider_Ab "A.c" Absent false).
Proof.
  destruct (Get_lookup map_to_list EmptyString [reader_Ab] provider_Ab
              eq_refl) as [H1 H2].
  split; [exact H1|]. split.
  - specialize (H2 "A.B" ltac:(done)).
    change (longestMatch map_to_list (value (root provider_Ab)) "A.B")
      with (Some [0; 0]) in H2.
    destruct H2 as (v & Hv & ->). vm_compute in Hv. by injection Hv as <-.
  - specialize (H2 "A.c" ltac:(done)).
    change (longestMatch map_to_list (value (root provider_Ab)) "A.c")
      with (@None (list nat)) in H2.
    exact H2.
Defined.

Lemma unambiguous_tree_two : unambiguous tree_two.
Proof.
  apply unambiguous_Mapping.
  - intros k1 k2 [x1 H1] [x2 H2] HE.
    apply lookup_insert_Some in H1 as [[<- _]|[_ [<- _]%lookup_singleton_Some]];
    apply lookup_insert_Some in H2 as [[<- _]|[_ [<- _]%lookup_singleton_Some]];
      done.
  - intros k x Hk.
    by apply lookup_insert_Some in Hk
      as [[_ <-]|[_ [_ <-]%lookup_singleton_Some]].
Qed.

Lemma Get_deterministic_witness :
  (λ x, (valueOf x, foundOf x)) <$>
    Get map_to_list EmptyString
      (mkProvider (mkNode objectNode EmptyString tree_two None)) "HOST" =
  (λ x, (valueOf x, foundOf x)) <$>
    Get (λ m, reverse (map_to_list m)) EmptyString
      (mkProvider (mkNode objectNode EmptyString tree_two None)) "host" ∧
  (λ x, (valueOf x, foundOf x)) <$>
    Get (λ m, reverse (map_to_list m)) EmptyString
      (mkProvider (mkNode objectNode EmptyString tree_two None)) "host" =
  Some (Scalar (SString "a"), true).
Proof.
  split; [|reflexivity].
  apply (Get_deterministic map_to_list (λ m, reverse (map_to_list m))
           EmptyString (λ m, reflexivity _) (λ m, reverse_Permutation _)
           [mkReader None (Ok tree_two)]);
    [reflexivity|exact unambiguous_tree_two|reflexivity..].
Defined.


Lemma fromFiles_closes_every_file_witness :
  fromFiles open_example
    (λ readers, (Some (length readers), None)) ["bad.yaml"; "base.yaml"] =
  ((Some 2, Some (ParseError "close bad.yaml: file already closed")),
   [file_bad; file_base]).
Proof.
  rewrite (fromFiles_closes_every_file open_example
             (λ readers, (Some (length readers), None))
             ["bad.yaml"; "base.yaml"] [file_bad; file_base]).
  - reflexivity.
  - by repeat constructor.
Defined.

Lemma NewYAMLProviderFromFiles_parse_error_witness :
  NewYAMLProviderFromFiles open_example EmptyString
    (λ p, (Some p, None)) ["base.yaml"; "bad.yaml"; "base.yaml"] =
  ((None,
    Some (InFile "bad.yaml"
            (ParseError "yaml: did not find expected key"))),
   [file_base] ++ file_bad :: [file_base]).
Proof.
  apply (NewYAMLProviderFromFiles_parse_error open_example EmptyString
           (λ p, (Some p, None)) ["base.yaml"; "bad.yaml"; "base.yaml"]
           [file_base] file_bad [file_base] tree_Ab
           (ParseError "yaml: did not find expected key")).
  - by repeat constructor.
  - reflexivity.
  - reflexivity.
Defined.
